(** * Electro storefront: verification of [staticfiles/js/main.js]

    The script is the page's interaction glue: it registers scroll and click
    handlers through jQuery, initialises the carousel and reveal-animation
    plugins when they are loaded, and steps a quantity field up and down.

    The development follows the script top to bottom.  JavaScript numbers are
    IEEE-754 binary64 values; they are modelled exactly, with the executable
    specification of floats of the Standard Library ([SpecFloat]) instantiated
    at precision 53 and maximal exponent 1024.  Strings are sequences of code
    units in the range U+0000..U+00FF. *)

From stdpp Require Import gmap strings list.
From Stdlib Require Import ZArith NArith Ascii String SpecFloat.
From Stdlib Require Import Decimal DecimalString DecimalPos DecimalN.

Local Open Scope Z_scope.

#[local] Set Warnings "-clear-no-such-hyp".

(** ** Numbers: the Number type of the language *)

Module Number.

Definition prec : Z := 53.
Definition emax : Z := 1024.

Abbreviation number := spec_float.

Definition NaN : number := S754_nan.

(** The Number value for a mathematical integer (round to nearest, ties to
    even); exact for every integer of magnitude up to 2^53. *)
Definition of_Z (n : Z) : number := binary_normalize prec emax n 0 false.

(** [x + y], [x - y], [x < y] and [x > y] on Numbers. *)
Definition add (x y : number) : number := SFadd prec emax x y.
Definition sub (x y : number) : number := SFsub prec emax x y.
Definition ltb (x y : number) : bool := SFltb x y.
Definition gtb (x y : number) : bool := SFltb y x.

Definition is_nan (x : number) : bool :=
  match x with S754_nan => true | _ => false end.

(** The larger of two Numbers. *)
Definition larger (x y : number) : number := if ltb x y then y else x.

(** The Number value of the decimal [m * 10^e], with the sign [neg]: the
    correctly rounded binary64 value.  A zero mantissa keeps its sign. *)
Definition of_decimal (neg : bool) (m : N) (e : Z) : number :=
  match m with
  | N0 => S754_zero neg
  | Npos p =>
      match e with
      | Zneg k =>
          let '(q, e', l) :=
            SFdiv_core_binary prec emax (Zpos p) 0 (Z.pow_pos 10 k) 0 in
          binary_round_aux prec emax neg q e' l
      | _ =>
          match Zpos p * 10 ^ e with
          | Zpos q => binary_round prec emax neg q 0
          | _ => S754_zero neg
          end
      end
  end.

End Number.

Import Number.

(** ** Reading a Number out of a String *)

Module StringNumericLiteral.

Definition code (c : ascii) : N := N_of_ascii c.

(** StrWhiteSpaceChar: TAB, LF, VT, FF, CR, SP and NBSP. *)
Definition is_StrWhiteSpaceChar (c : ascii) : bool :=
  let n := code c in
  ((9 <=? n) && (n <=? 13) || (n =? 32) || (n =? 160))%N.

(** The value of a digit in a literal of radix up to 16, when it is one. *)
Definition digit_value (c : ascii) : option N :=
  let n := code c in
  if ((48 <=? n) && (n <=? 57))%N then Some (n - 48)%N
  else if ((97 <=? n) && (n <=? 102))%N then Some (n - 87)%N
  else if ((65 <=? n) && (n <=? 70))%N then Some (n - 55)%N
  else None.

Fixpoint TrimStart (s : string) : string :=
  match s with
  | String c s' => if is_StrWhiteSpaceChar c then TrimStart s' else s
  | EmptyString => s
  end.

Fixpoint all_StrWhiteSpace (s : string) : bool :=
  match s with
  | String c s' => is_StrWhiteSpaceChar c && all_StrWhiteSpace s'
  | EmptyString => true
  end.

(** [strip p s] is what follows [p] in [s], when [s] starts with [p]. *)
Fixpoint strip (p s : string) : option string :=
  match p, s with
  | EmptyString, _ => Some s
  | String a p', String b s' => if Ascii.eqb a b then strip p' s' else None
  | String _ _, EmptyString => None
  end.

(** The longest run of digits of radix [r] at the head of [s]: the value
    accumulated onto [acc], the number of digits read and the rest. *)
Fixpoint Digits (r : N) (acc : N) (n : nat) (s : string) : N * nat * string :=
  match s with
  | String c s' =>
      match digit_value c with
      | Some d =>
          if (d <? r)%N then Digits r (r * acc + d)%N (S n) s'
          else (acc, n, s)
      | None => (acc, n, s)
      end
  | EmptyString => (acc, n, s)
  end.

(** ExponentPart, when one is there: [e] or [E], a sign, digits. *)
Definition ExponentPart (s : string) : option (Z * string) :=
  match s with
  | String c s' =>
      if (code c =? 101)%N || (code c =? 69)%N then
        let '(neg, s'') :=
          match s' with
          | String d t =>
              if (code d =? 45)%N then (true, t)
              else if (code d =? 43)%N then (false, t)
              else (false, s')
          | EmptyString => (false, s')
          end in
        let '(v, n, rest) := Digits 10 0 0 s'' in
        match n with
        | O => None
        | S _ => Some (if neg then - Z.of_N v else Z.of_N v, rest)
        end
      else None
  | EmptyString => None
  end.

(** The longest prefix of [s] that is a StrUnsignedDecimalLiteral: its
    Number value under the sign [neg], and what follows it. *)
Definition StrUnsignedDecimalLiteral (neg : bool) (s : string)
  : option (number * string) :=
  match strip "Infinity" s with
  | Some rest => Some (S754_infinity neg, rest)
  | None =>
      let '(i, ni, r1) := Digits 10 0 0 s in
      let '(m, nf, r2) :=
        match r1 with
        | String c t =>
            if (code c =? 46)%N then Digits 10 i 0 t else (i, O, r1)
        | EmptyString => (i, O, r1)
        end in
      match ni, nf with
      | O, O => None
      | _, _ =>
          match ExponentPart r2 with
          | Some (e, r3) =>
              Some (of_decimal neg m (e - Z.of_nat nf), r3)
          | None => Some (of_decimal neg m (- Z.of_nat nf), r2)
          end
      end
  end.

Definition StrDecimalLiteral (s : string) : option (number * string) :=
  match s with
  | String c s' =>
      if (code c =? 45)%N then StrUnsignedDecimalLiteral true s'
      else if (code c =? 43)%N then StrUnsignedDecimalLiteral false s'
      else StrUnsignedDecimalLiteral false s
  | EmptyString => None
  end.

(** NonDecimalIntegerLiteral: [0x], [0o] or [0b] (either case) and at least
    one digit of that radix. *)
Definition NonDecimalIntegerLiteral (s : string) : option (N * string) :=
  match s with
  | String z (String x s') =>
      if (code z =? 48)%N then
        let radix :=
          if (code x =? 120)%N || (code x =? 88)%N then Some 16%N
          else if (code x =? 111)%N || (code x =? 79)%N then Some 8%N
          else if (code x =? 98)%N || (code x =? 66)%N then Some 2%N
          else None in
        match radix with
        | Some r =>
            let '(v, n, rest) := Digits r 0 0 s' in
            match n with O => None | S _ => Some (v, rest) end
        | None => None
        end
      else None
  | _ => None
  end.

(** [parseFloat(s)]: leading white space is skipped, then the longest
    prefix that is a StrDecimalLiteral is read; NaN when there is none. *)
Definition parseFloat (s : string) : number :=
  match StrDecimalLiteral (TrimStart s) with
  | Some (v, _) => v
  | None => NaN
  end.

(** [ToNumber(s)] (StringToNumber): the whole string, white space at both
    ends apart, has to be a StrNumericLiteral; the empty string is +0. *)
Definition ToNumber (s : string) : number :=
  let t := TrimStart s in
  match t with
  | EmptyString => S754_zero false
  | String _ _ =>
      match NonDecimalIntegerLiteral t with
      | Some (n, rest) =>
          if all_StrWhiteSpace rest then of_Z (Z.of_N n) else NaN
      | None =>
          match StrDecimalLiteral t with
          | Some (v, rest) => if all_StrWhiteSpace rest then v else NaN
          | None => NaN
          end
      end
  end.

End StringNumericLiteral.

Import StringNumericLiteral.

(** ** The document *)

Module DOM.

(** An element: its tag, its class list, its other attributes and whether
    it is rendered; [parentNode] is the index of its parent in the document,
    which lists the elements in document order. *)
Record element := Element {
  tagName : string;
  classList : gset string;
  attributes : gmap string string;
  displayed : bool;
  parentNode : option nat;
}.

Definition hasAttribute (e : element) (name : string) : bool :=
  bool_decide (is_Some (attributes e !! name)).

Definition with_classList (f : gset string → gset string) (e : element)
  : element :=
  {| tagName := tagName e; classList := f (classList e);
     attributes := attributes e; displayed := displayed e;
     parentNode := parentNode e |}.

Definition with_displayed (b : bool) (e : element) : element :=
  {| tagName := tagName e; classList := classList e;
     attributes := attributes e; displayed := b;
     parentNode := parentNode e |}.

(** The selectors the script uses. *)
Inductive selector :=
| ById (name : string)                      (* #name *)
| ByClass (name : string)                   (* .name *)
| ByTag (tag : string)                      (* tag *)
| ByAttr (tag attr val : string)            (* tag[attr="val"] *)
| Group (s1 s2 : selector)                  (* s1, s2 *)
| Descendant (anc s : selector).            (* anc s *)

Fixpoint ancestors (fuel : nat) (doc : list element) (e : element)
  : list element :=
  match fuel with
  | O => []
  | S fuel' =>
      match parentNode e with
      | Some i =>
          match doc !! i with
          | Some p => p :: ancestors fuel' doc p
          | None => []
          end
      | None => []
      end
  end.

(** [e.matches(sel)]: whether an element matches a selector.  Which of the
    matching elements [$(sel)] selects is [select], below. *)
Fixpoint matches (doc : list element) (sel : selector) (e : element) : bool :=
  match sel with
  | ById name => bool_decide (attributes e !! "id" = Some name)
  | ByClass name => bool_decide (name ∈ classList e)
  | ByTag tag => String.eqb (tagName e) tag
  | ByAttr tag attr val =>
      String.eqb (tagName e) tag && bool_decide (attributes e !! attr = Some val)
  | Group s1 s2 => matches doc s1 e || matches doc s2 e
  | Descendant anc s =>
      matches doc s e && existsb (matches doc anc) (ancestors (List.length doc) doc e)
  end.

(** The page: the document, the scroll offset of the window, the fragment
    of the address when it has one, and the animations started so far. *)
Inductive fx_property :=
| FxShow                       (* opacity: 'show' *)
| FxHide                       (* opacity: 'hide' *)
| FxScrollTop (target : number).

Record animation := Animation {
  fx_on : selector;
  fx_prop : fx_property;
  fx_duration : Z;             (* milliseconds *)
  fx_easing : string;
}.

Record page := Page {
  document : list element;
  pageYOffset : number;
  fragment : option string;
  fx : list animation;
}.

(** [$(sel)]: the elements a selector selects, in document order.  A bare
    id selector is looked up with [getElementById] and selects the first
    element that carries the id, and no other; every other selector
    selects all the elements that match it. *)
Definition by_id (sel : selector) : bool :=
  match sel with
  | ById _ => true
  | _ => false
  end.

Definition select (sel : selector) (pg : page) : list element :=
  let all := filter (λ e, matches (document pg) sel e = true) (document pg) in
  if by_id sel then take 1 all else all.

(** [f] applied to the first element that satisfies [p]. *)
Fixpoint update_first (p : element → bool) (f : element → element)
    (doc : list element) : list element :=
  match doc with
  | [] => []
  | e :: doc' => if p e then f e :: doc' else e :: update_first p f doc'
  end.

(** [f] applied to the elements that [sel] selects. *)
Definition update (sel : selector) (f : element → element) (pg : page) : page :=
  {| document :=
       if by_id sel
       then update_first (matches (document pg) sel) f (document pg)
       else (λ e, if matches (document pg) sel e then f e else e) <$> document pg;
     pageYOffset := pageYOffset pg;
     fragment := fragment pg;
     fx := fx pg |}.

Definition start (a : animation) (pg : page) : page :=
  {| document := document pg; pageYOffset := pageYOffset pg;
     fragment := fragment pg; fx := fx pg ++ [a] |}.

Definition scroll_to (y : number) (pg : page) : page :=
  {| document := document pg; pageYOffset := y;
     fragment := fragment pg; fx := fx pg |}.

End DOM.

Import DOM.

(** ** The part of jQuery the script calls

    jQuery is not part of the repository: the operations below follow its
    documentation, as far as the script depends on it. *)

Module JQuery.

(** Class names in an argument are separated by the HTML space characters. *)
Definition is_html_space (c : ascii) : bool :=
  let n := code c in
  ((n =? 32) || (n =? 9) || (n =? 10) || (n =? 12) || (n =? 13))%N.

Fixpoint class_names (cur : string) (s : string) : list string :=
  match s with
  | EmptyString => match cur with EmptyString => [] | _ => [cur] end
  | String c s' =>
      if is_html_space c then
        match cur with
        | EmptyString => class_names EmptyString s'
        | _ => cur :: class_names EmptyString s'
        end
      else class_names (cur +:+ String c EmptyString) s'
  end.

Definition hasClass (e : element) (name : string) : bool :=
  bool_decide (name ∈ classList e).

Definition addClass (sel : selector) (names : string) : page → page :=
  update sel
    (with_classList (λ cl, cl ∪ list_to_set (class_names EmptyString names))).

Definition removeClass (sel : selector) (names : string) : page → page :=
  update sel
    (with_classList (λ cl, cl ∖ list_to_set (class_names EmptyString names))).

Definition scrollTop (pg : page) : number := pageYOffset pg.

(** [jQuery.fx.speeds]: the named durations, and the default one. *)
Definition speeds (name : string) : Z :=
  if String.eqb name "slow" then 600
  else if String.eqb name "fast" then 200
  else 400.

(** [animate] starts an animation of a property of the selected elements;
    the fades are animations of the opacity with the default curve. *)
Definition animate (sel : selector) (prop : fx_property) (duration : Z)
    (easing : string) : page → page :=
  start {| fx_on := sel; fx_prop := prop;
           fx_duration := duration; fx_easing := easing |}.

Definition fadeIn (sel : selector) (speed : string) : page → page :=
  animate sel FxShow (speeds speed) "swing".

Definition fadeOut (sel : selector) (speed : string) : page → page :=
  animate sel FxHide (speeds speed) "swing".

(** What an animation has done to the page once it has run to its end:
    the faded elements are rendered or not, and the window is at the
    target offset when the root element is among the animated ones.  The
    page has no state for an animation under way: from [start] to [finish]
    the document and the offset hold what they held before. *)
Definition finish (a : animation) (pg : page) : page :=
  match fx_prop a with
  | FxShow => update (fx_on a) (with_displayed true) pg
  | FxHide => update (fx_on a) (with_displayed false) pg
  | FxScrollTop y =>
      match select (fx_on a) pg with
      | [] => pg
      | _ :: _ => scroll_to y pg
      end
  end.

(** The event object handed to a handler. *)
Record event := Event {
  defaultPrevented : bool;
  propagationStopped : bool;
}.

Definition preventDefault (ev : event) : event :=
  {| defaultPrevented := true; propagationStopped := propagationStopped ev |}.

(** What a handler returns: nothing, or [false]. *)
Inductive returned := ReturnUndefined | ReturnFalse.

(** After a handler has run: [return false] prevents the default action
    and stops the propagation. *)
Definition after_handler (r : returned) (ev : event) : event :=
  match r with
  | ReturnFalse => {| defaultPrevented := true; propagationStopped := true |}
  | ReturnUndefined => ev
  end.

End JQuery.

Import JQuery.

(** ** The script *)

Module Main.

(** What is loaded beside the script: whether the constructor [WOW] of the
    reveal-animation library is defined, the methods of [$.fn] and the
    timing functions of [$.easing] (each absent when [None]). *)
Record globals := Globals {
  WOW : bool;
  fn : option (gset string);
  easing : option (gset string);
}.

(** [$.fn && $.fn.name] and [$.easing && $.easing.name]. *)
Definition fn_has (g : globals) (name : string) : bool :=
  match fn g with
  | Some methods => bool_decide (name ∈ methods)
  | None => false
  end.

Definition easing_has (g : globals) (name : string) : bool :=
  match easing g with
  | Some curves => bool_decide (name ∈ curves)
  | None => false
  end.

(** Object literals. *)
Local Unset Elimination Schemes.
Inductive value :=
| VBool (b : bool)
| VNum (n : number)
| VStr (s : string)
| VArr (items : list value)
| VObj (props : list (string * value)).
Local Set Elimination Schemes.

Fixpoint get (key : string) (props : list (string * value)) : option value :=
  match props with
  | [] => None
  | (k, v) :: rest => if String.eqb k key then Some v else get key rest
  end.

Definition prop (key : string) (o : value) : option value :=
  match o with
  | VObj props => get key props
  | _ => None
  end.

Definition keys (o : value) : list string :=
  match o with
  | VObj props => props.*1
  | _ => []
  end.

(** The markup of an arrow: an [i] element of the icon class [cls]. *)
Definition quote : string := String (ascii_of_N 34) EmptyString.

Definition icon (cls : string) : value :=
  VStr ("<i class=" +:+ quote +:+ cls +:+ quote +:+ "></i>").

Definition items (n : Z) : value := VObj [("items", VNum (of_Z n))].

(** The options of the five carousels, as the script writes them. *)
Definition header_options : value :=
  VObj [ ("items", VNum (of_Z 1));
         ("autoplay", VBool true);
         ("smartSpeed", VNum (of_Z 2000));
         ("center", VBool false);
         ("dots", VBool false);
         ("loop", VBool true);
         ("margin", VNum (of_Z 0));
         ("nav", VBool true);
         ("navText", VArr [icon "bi bi-arrow-left"; icon "bi bi-arrow-right"]) ].

Definition productList_options : value :=
  VObj [ ("autoplay", VBool true);
         ("smartSpeed", VNum (of_Z 2000));
         ("dots", VBool false);
         ("loop", VBool true);
         ("margin", VNum (of_Z 25));
         ("nav", VBool true);
         ("navText", VArr [icon "fas fa-chevron-left"; icon "fas fa-chevron-right"]);
         ("responsiveClass", VBool true);
         ("responsive",
           VObj [ ("0", items 1); ("576", items 1); ("768", items 2);
                  ("992", items 2); ("1200", items 3) ]) ].

Definition productImg_options : value :=
  VObj [ ("autoplay", VBool true);
         ("smartSpeed", VNum (of_Z 1500));
         ("dots", VBool false);
         ("loop", VBool true);
         ("items", VNum (of_Z 1));
         ("margin", VNum (of_Z 25));
         ("nav", VBool true);
         ("navText", VArr [icon "bi bi-arrow-left"; icon "bi bi-arrow-right"]) ].

Definition single_options : value :=
  VObj [ ("autoplay", VBool true);
         ("smartSpeed", VNum (of_Z 1500));
         ("dots", VBool true);
         ("dotsData", VBool true);
         ("loop", VBool true);
         ("items", VNum (of_Z 1));
         ("nav", VBool true);
         ("navText", VArr [icon "bi bi-arrow-left"; icon "bi bi-arrow-right"]) ].

Definition related_options : value :=
  VObj [ ("autoplay", VBool true);
         ("smartSpeed", VNum (of_Z 1500));
         ("dots", VBool false);
         ("loop", VBool true);
         ("margin", VNum (of_Z 25));
         ("nav", VBool true);
         ("navText", VArr [icon "fas fa-chevron-left"; icon "fas fa-chevron-right"]);
         ("responsiveClass", VBool true);
         ("responsive",
           VObj [ ("0", items 1); ("576", items 1); ("768", items 2);
                  ("992", items 3); ("1200", items 4) ]) ].

(** *** Start-up

    The body of the script runs once.  It calls into the libraries and
    registers the handlers; a call to something that is not loaded throws
    and ends the run.  The calls made are kept in a log, oldest first. *)

Inductive handler :=
| HideSpinner
| StickyNavbar
| ProductQuantity
| BackToTopFade
| BackToTopClick
| PlaceholderLink.

Inductive target :=
| Window
| Document
| Matched (sel : selector).

Inductive call :=
| SetTimeout (h : handler) (ms : Z)
| WowInit
| OwlCarousel (sel : selector) (options : value)
| On (t : target) (type : string) (delegate : option selector) (h : handler).

Inductive error :=
| ReferenceError (name : string)
| TypeError (method : string).

Inductive completion (A : Type) :=
| Normal (a : A)
| Throw (e : error).
Arguments Normal {A} a.
Arguments Throw {A} e.

Definition M (A : Type) : Type := list call → completion A * list call.

#[export] Instance M_ret : MRet M := λ A a log, (Normal a, log).

#[export] Instance M_bind : MBind M := λ A B f m log,
  match m log with
  | (Normal a, log') => f a log'
  | (Throw e, log') => (Throw e, log')
  end.

#[export] Instance M_throw : MThrow error M := λ A e log, (Throw e, log).

Definition emit (c : call) : M unit := λ log, (Normal (), log ++ [c]).

Definition when (b : bool) (m : M unit) : M unit := if b then m else mret ().

(** Calling the method [name] of a jQuery object: a TypeError when [$.fn]
    has no such method. *)
Definition method (g : globals) (name : string) : M unit :=
  if fn_has g name then mret () else mthrow (TypeError name).

(** [new WOW().init()]: a ReferenceError when [WOW] is not defined. *)
Definition new_WOW_init (g : globals) : M unit :=
  if WOW g then emit WowInit else mthrow (ReferenceError "WOW").

Definition owlCarousel (g : globals) (sel : selector) (options : value) : M unit :=
  method g "owlCarousel" ;; emit (OwlCarousel sel options).

Definition on (g : globals) (t : target) (type : string)
    (delegate : option selector) (h : handler) : M unit :=
  method g "on" ;; emit (On t type delegate h).

(** The shorthands [.scroll(f)] and [.click(f)] register through [this.on]. *)
Definition scroll (g : globals) (h : handler) : M unit :=
  method g "scroll" ;; on g Window "scroll" None h.

Definition click (g : globals) (sel : selector) (h : handler) : M unit :=
  method g "click" ;; on g (Matched sel) "click" None h.

Definition spinner : M unit := emit (SetTimeout HideSpinner 1).

Definition main (g : globals) : M unit :=
  spinner ;;
  when (WOW g) (new_WOW_init g) ;;
  scroll g StickyNavbar ;;
  when (fn_has g "owlCarousel")
    (owlCarousel g (ByClass "header-carousel") header_options) ;;
  when (fn_has g "owlCarousel")
    (owlCarousel g (ByClass "productList-carousel") productList_options) ;;
  when (fn_has g "owlCarousel")
    (owlCarousel g (ByClass "productImg-carousel") productImg_options) ;;
  when (fn_has g "owlCarousel")
    (owlCarousel g (ByClass "single-carousel") single_options) ;;
  when (fn_has g "owlCarousel")
    (owlCarousel g (ByClass "related-carousel") related_options) ;;
  on g (Matched (Descendant (ByClass "quantity") (ByTag "button"))) "click"
    None ProductQuantity ;;
  scroll g BackToTopFade ;;
  click g (ByClass "back-to-top") BackToTopClick ;;
  on g Document "click" (Some (ByAttr "a" "href" "#")) PlaceholderLink.

(** *** The handlers *)

(** The deferred callback of [spinner]. *)
Definition hide_spinner (pg : page) : page :=
  if (0 <? List.length (select (ById "spinner") pg))%nat
  then removeClass (ById "spinner") "show" pg
  else pg.

(** Sticky Navbar. *)
Definition sticky_navbar (pg : page) : page :=
  if gtb (scrollTop pg) (of_Z 45)
  then addClass (ByClass "nav-bar") "sticky-top shadow-sm" pg
  else removeClass (ByClass "nav-bar") "sticky-top shadow-sm" pg.

(** Product Quantity: the click on [button], with [oldValue] the value of
    the input found under the button's grandparent; the result is the
    [newVal] that is written back into that input. *)
Definition quantity_click (button : element) (oldValue : string) : number :=
  if hasClass button "btn-plus" then
    add (parseFloat oldValue) (of_Z 1)
  else if gtb (ToNumber oldValue) (of_Z 0) then
    sub (parseFloat oldValue) (of_Z 1)
  else
    of_Z 0.

(** Back to top button: the scroll handler and the click handler. *)
Definition back_to_top_fade (pg : page) : page :=
  if gtb (scrollTop pg) (of_Z 300)
  then fadeIn (ByClass "back-to-top") "slow" pg
  else fadeOut (ByClass "back-to-top") "slow" pg.

(** The click handler ends in [return false] when [animate] returns.
    [$.easing] belongs to the effects of jQuery, as [animate] does: where
    it is not defined (the slim build) the test of the first line is false
    and the call of [animate] on the next line throws a TypeError, so the
    handler does not return and the page is as it was.  The timing function
    itself is looked up only when the animation runs. *)
Definition back_to_top_click (g : globals) (pg : page)
  : completion returned * page :=
  match easing g with
  | None => (Throw (TypeError "animate"), pg)
  | Some _ =>
      let easing :=
        if easing_has g "easeInOutExpo" then "easeInOutExpo" else "swing" in
      (Normal ReturnFalse,
       animate (Group (ByTag "html") (ByTag "body")) (FxScrollTop (of_Z 0))
         1500 easing pg)
  end.

(** Placeholder links: [this] is the anchor that was clicked. *)
Definition placeholder_link (this : element) (ev : event) : returned * event :=
  if hasAttribute this "data-bs-toggle" then (ReturnUndefined, ev)
  else (ReturnUndefined, preventDefault ev).

(** *** A click on a placeholder link, as the browser carries it out

    The handler runs; unless the default action was prevented the browser
    then follows the link: the address gets the empty fragment and the
    window is scrolled to the top. *)
Definition follow_empty_fragment (pg : page) : page :=
  {| document := document pg; pageYOffset := S754_zero false;
     fragment := Some EmptyString; fx := fx pg |}.

Definition click_placeholder (this : element) (ev : event) (pg : page) : page :=
  let '(r, ev') := placeholder_link this ev in
  if defaultPrevented (after_handler r ev') then pg
  else follow_empty_fragment pg.

End Main.

Import Main.

(** * The pages, buttons and logs the statements speak of *)

Section Vocabulary.

(** Elements of the markup: a navigation bar with the given classes, the
    root element, an anchor with the given attributes, and the two buttons of
    a quantity group. *)
Definition nav_bar (classes : gset string) : element :=
  {| tagName := "div"; classList := classes; attributes := ∅;
     displayed := true; parentNode := None |}.

Definition html_root : element :=
  {| tagName := "html"; classList := ∅; attributes := ∅;
     displayed := true; parentNode := None |}.

Definition anchor (attrs : gmap string string) : element :=
  {| tagName := "a"; classList := ∅; attributes := attrs;
     displayed := true; parentNode := None |}.

Definition button_of (classes : gset string) : element :=
  {| tagName := "button"; classList := classes; attributes := ∅;
     displayed := true; parentNode := None |}.

Definition plus_button : element := button_of {[ "btn"; "btn-plus" ]}.
Definition minus_button : element := button_of {[ "btn"; "btn-minus" ]}.

(** The selector [html, body] of the back-to-top animation. *)
Definition root_and_body : selector := Group (ByTag "html") (ByTag "body").

(** The five initialisations of carousels, and the four registrations that
    follow them, in the order of the script. *)
Definition carousel_calls : list call :=
  [ OwlCarousel (ByClass "header-carousel") header_options;
    OwlCarousel (ByClass "productList-carousel") productList_options;
    OwlCarousel (ByClass "productImg-carousel") productImg_options;
    OwlCarousel (ByClass "single-carousel") single_options;
    OwlCarousel (ByClass "related-carousel") related_options ].

Definition handler_registrations : list call :=
  [ On (Matched (Descendant (ByClass "quantity") (ByTag "button"))) "click"
      None ProductQuantity;
    On Window "scroll" None BackToTopFade;
    On (Matched (ByClass "back-to-top")) "click" None BackToTopClick;
    On Document "click" (Some (ByAttr "a" "href" "#")) PlaceholderLink ].

(** The calls of a run that reaches the end of the script. *)
Definition startup_log (g : globals) : list call :=
  [SetTimeout HideSpinner 1]
  ++ (if WOW g then [WowInit] else [])
  ++ [On Window "scroll" None StickyNavbar]
  ++ (if fn_has g "owlCarousel" then carousel_calls else [])
  ++ handler_registrations.

(** The carousels a log initialises, with their options. *)
Definition carousels (log : list call) : list (selector * value) :=
  omap (λ c, match c with
             | OwlCarousel sel options => Some (sel, options)
             | _ => None
             end) log.

(** The widths of the breakpoints of an options record, when it has any. *)
Definition breakpoints (options : value) : option (list string) :=
  keys <$> prop "responsive" options.

Definition standard_breakpoints : list string :=
  ["0"; "576"; "768"; "992"; "1200"].

(** A page served with jQuery alone, and one served with jQuery and the
    carousel plugin. *)
Definition jquery_only : globals :=
  {| WOW := false;
     fn := Some {[ "scroll"; "on"; "click"; "addClass"; "removeClass";
                   "fadeIn"; "fadeOut"; "animate"; "val" ]};
     easing := Some {[ "linear"; "swing" ]} |}.

Definition with_carousel : globals :=
  {| WOW := false;
     fn := Some {[ "scroll"; "on"; "click"; "owlCarousel" ]};
     easing := Some {[ "linear"; "swing" ]} |}.

(** One half, as a Number. *)
Definition one_half : number := S754_finite false 4503599627370496 (-53).

(** The decimal digits of a whole number, as the field shows it, and the
    value of a run of decimal digits read onto [acc]. *)
Definition decimal (n : N) : string := NilEmpty.string_of_uint (N.to_uint n).

Fixpoint uint_value (acc : N) (d : uint) : N :=
  match d with
  | Nil => acc
  | D0 d => uint_value (10 * acc + 0) d
  | D1 d => uint_value (10 * acc + 1) d
  | D2 d => uint_value (10 * acc + 2) d
  | D3 d => uint_value (10 * acc + 3) d
  | D4 d => uint_value (10 * acc + 4) d
  | D5 d => uint_value (10 * acc + 5) d
  | D6 d => uint_value (10 * acc + 6) d
  | D7 d => uint_value (10 * acc + 7) d
  | D8 d => uint_value (10 * acc + 8) d
  | D9 d => uint_value (10 * acc + 9) d
  end%N.

(** The field [s] reads as the Number [v], under both readings the handler
    makes of it. *)
Definition reads_as (s : string) (v : number) : Prop :=
  ToNumber s = v ∧ parseFloat s = v.

(** A run of clicks on the buttons of one quantity group: the field goes
    from one text to the other, each click leaving a text that reads as the
    Number it wrote. *)
Inductive clicks : list element → string → string → Prop :=
| clicks_done (s : string) : clicks [] s s
| clicks_step (button : element) (rest : list element) (s s' s'' : string) :
    reads_as s' (quantity_click button s) →
    clicks rest s' s'' →
    clicks (button :: rest) s s''.

(** The counter a run of clicks amounts to on whole numbers. *)
Fixpoint counter (buttons : list element) (n : Z) : Z :=
  match buttons with
  | [] => n
  | button :: rest =>
      counter rest
        (if hasClass button "btn-plus" then n + 1 else Z.max (n - 1) 0)
  end.

End Vocabulary.

(** * Properties *)

(** ** Sticky navbar *)

Section StickyNavbar.

Lemma sticky_names :
  class_names EmptyString "sticky-top shadow-sm" = ["sticky-top"; "shadow-sm"].
Proof. reflexivity. Qed.

Lemma matches_class doc name e :
  matches doc (ByClass name) e = bool_decide (name ∈ classList e).
Proof. reflexivity. Qed.

(** Apart from a bare id, a selector selects the elements that match it. *)
Lemma elem_of_select sel pg e :
  by_id sel = false →
  e ∈ select sel pg ↔ e ∈ document pg ∧ matches (document pg) sel e = true.
Proof.
  intros Hs. unfold select. rewrite Hs, list_elem_of_filter. tauto.
Qed.

Lemma elem_of_update sel f pg e :
  by_id sel = false →
  e ∈ document (update sel f pg) ↔
  ∃ y, y ∈ document pg ∧
       e = if matches (document pg) sel y then f y else y.
Proof.
  intros Hs. unfold update; simpl. rewrite Hs, list_elem_of_fmap.
  split; intros (y & H1 & H2); exists y; auto.
Qed.

Lemma elem_of_select_class name pg e :
  e ∈ select (ByClass name) pg ↔
  e ∈ document pg ∧ matches (document pg) (ByClass name) e = true.
Proof. by apply elem_of_select. Qed.

Lemma elem_of_update_class name f pg e :
  e ∈ document (update (ByClass name) f pg) ↔
  ∃ y, y ∈ document pg ∧
       e = if matches (document pg) (ByClass name) y then f y else y.
Proof. by apply elem_of_update. Qed.

(** Updating the selected elements twice is updating them once, when the
    update is idempotent on them and does not change what is selected. *)
Lemma update_idempotent sel f pg :
  by_id sel = false →
  (∀ e, matches (document pg) sel e = true → f (f e) = f e) →
  (∀ e doc', matches doc' sel (f e) = matches (document pg) sel e) →
  (∀ e doc', matches doc' sel e = matches (document pg) sel e) →
  update sel f (update sel f pg) = update sel f pg.
Proof.
  intros Hs Hf Hk Hd. unfold update; simpl. rewrite Hs. f_equal.
  rewrite <- list_fmap_compose. apply list_fmap_ext.
  intros i e _. simpl.
  destruct (matches (document pg) sel e) eqn:He.
  - rewrite Hk, He. by apply Hf.
  - by rewrite Hd, He.
Qed.

Lemma sticky_navbar_offset pg : scrollTop (sticky_navbar pg) = scrollTop pg.
Proof. unfold sticky_navbar. by destruct (gtb _ _). Qed.

Lemma sticky_navbar_idempotent pg :
  sticky_navbar (sticky_navbar pg) = sticky_navbar pg.
Proof.
  unfold sticky_navbar at 1. rewrite sticky_navbar_offset.
  unfold sticky_navbar.
  destruct (gtb (scrollTop pg) (of_Z 45)); unfold addClass, removeClass;
    rewrite sticky_names; (apply update_idempotent; [done|..]).
  - intros [t cl a d p] _. unfold with_classList; simpl. f_equal. set_solver.
  - intros [t cl a d p] doc'. rewrite !matches_class. simpl.
    apply bool_decide_ext. set_solver.
  - intros e doc'. by rewrite !matches_class.
  - intros [t cl a d p] _. unfold with_classList; simpl. f_equal. set_solver.
  - intros [t cl a d p] doc'. rewrite !matches_class. simpl.
    apply bool_decide_ext. set_solver.
  - intros e doc'. by rewrite !matches_class.
Qed.

(** C4. After the scroll handler has run at the offset [o], every
    [.nav-bar] element carries the class [sticky-top], and the class
    [shadow-sm], exactly when [o > 45]; and running the handler again at the
    same offset changes nothing. *)
Theorem sticky_navbar_iff (pg : page) (e : element) :
  e ∈ select (ByClass "nav-bar") (sticky_navbar pg) →
  ("sticky-top" ∈ classList e ↔ gtb (scrollTop pg) (of_Z 45) = true) ∧
  ("shadow-sm" ∈ classList e ↔ gtb (scrollTop pg) (of_Z 45) = true) ∧
  sticky_navbar (sticky_navbar pg) = sticky_navbar pg.
Proof.
  intros He. split_and!; [| |apply sticky_navbar_idempotent].
  all: apply elem_of_select_class in He as [Hin Hm]; revert Hin Hm.
  all: unfold sticky_navbar; destruct (gtb (scrollTop pg) (of_Z 45)).
  all: unfold addClass, removeClass; rewrite sticky_names.
  all: intros (y & _ & ->)%elem_of_update_class; rewrite !matches_class.
  all: destruct (decide ("nav-bar" ∈ classList y)) as [Hy|Hy];
    [rewrite (bool_decide_true _ Hy) | rewrite (bool_decide_false _ Hy)].
  all: rewrite bool_decide_eq_true; try contradiction.
  all: destruct y as [t cl a d p]; simpl in *; intros _; set_solver.
Qed.

Lemma sticky_navbar_iff_witness :
  let pg := {| document := [nav_bar {["nav-bar"]}];
               pageYOffset := of_Z 120; fragment := None; fx := [] |} in
  let e := nav_bar ({["nav-bar"]} ∪ {["sticky-top"; "shadow-sm"]}) in
  ("sticky-top" ∈ classList e ↔ gtb (scrollTop pg) (of_Z 45) = true) ∧
  ("shadow-sm" ∈ classList e ↔ gtb (scrollTop pg) (of_Z 45) = true) ∧
  sticky_navbar (sticky_navbar pg) = sticky_navbar pg.
Proof.
  intros pg e. apply (sticky_navbar_iff pg e).
  apply elem_of_select_class. split.
  - apply elem_of_update_class. exists (nav_bar {["nav-bar"]}). split.
    + simpl. apply list_elem_of_here.
    + vm_compute. reflexivity.
  - vm_compute. reflexivity.
Defined.

End StickyNavbar.

(** ** Spinner *)

Section Spinner.

(** Without a [#spinner] element the deferred callback does nothing. *)
Lemma hide_spinner_absent (pg : page) :
  select (ById "spinner") pg = [] → hide_spinner pg = pg.
Proof. unfold hide_spinner. by intros ->. Qed.

(** [$('#spinner')] after an update of [$('#spinner')] that keeps the
    attributes: the element that was selected, updated. *)
Lemma select_update_first (p : element → bool) (f : element → element)
    (doc : list element) :
  (∀ e, p (f e) = p e) →
  take 1 (filter (λ e, p e = true) (update_first p f doc)) =
  f <$> take 1 (filter (λ e, p e = true) doc).
Proof.
  intros Hp. induction doc as [|e doc IH]; [done|].
  simpl. destruct (p e) eqn:He.
  - rewrite !filter_cons, !decide_True by by rewrite ?Hp. done.
  - rewrite !filter_cons, !decide_False by by rewrite He. done.
Qed.

Lemma select_update_id name f pg :
  (∀ e, attributes (f e) = attributes e) →
  select (ById name) (update (ById name) f pg) = f <$> select (ById name) pg.
Proof.
  intros Hf. unfold select, update. simpl.
  apply (select_update_first
           (λ e, bool_decide (attributes e !! "id" = Some name))).
  intros e. by rewrite Hf.
Qed.

(** With one, the class [show] is gone from it afterwards. *)
Lemma hide_spinner_hides (pg : page) (e : element) :
  e ∈ select (ById "spinner") (hide_spinner pg) → "show" ∉ classList e.
Proof.
  unfold hide_spinner.
  destruct (0 <? List.length (select (ById "spinner") pg))%nat eqn:Hn.
  - unfold removeClass. rewrite select_update_id by done.
    intros (y & -> & _)%list_elem_of_fmap. destruct y; simpl. set_solver.
  - apply Nat.ltb_ge in Hn.
    destruct (select (ById "spinner") pg); [|simpl in Hn; lia].
    by intros ?%elem_of_nil.
Qed.

End Spinner.

(** ** Back to top: visibility *)

Section BackToTopFade.

(** C5. At the offset [o] the scroll handler starts one animation of
    [.back-to-top], a fade in when [o > 300] and a fade out otherwise, of
    the duration named [slow] (600 ms, not an instant toggle); once it has
    run, the [.back-to-top] elements are rendered exactly when [o > 300]. *)
Theorem back_to_top_fade_iff (pg : page) :
  ∃ a : animation,
    back_to_top_fade pg = start a pg ∧
    fx_on a = ByClass "back-to-top" ∧
    fx_prop a = (if gtb (scrollTop pg) (of_Z 300) then FxShow else FxHide) ∧
    fx_duration a = speeds "slow" ∧ 0 < fx_duration a ∧
    ∀ e, e ∈ select (ByClass "back-to-top") (finish a (back_to_top_fade pg)) →
         (displayed e = true ↔ gtb (scrollTop pg) (of_Z 300) = true).
Proof.
  unfold back_to_top_fade, fadeIn, fadeOut, animate.
  destruct (gtb (scrollTop pg) (of_Z 300)); eexists;
    (split; [reflexivity|]); simpl; split_and!; try done.
  all: intros e; unfold finish; simpl.
  all: intros [Hin Hm]%elem_of_select_class; revert Hm.
  all: apply elem_of_update_class in Hin as (y & _ & ->).
  all: simpl.
  all: destruct (decide ("back-to-top" ∈ classList y)) as [Hy|Hy];
    [rewrite (bool_decide_true _ Hy) | rewrite (bool_decide_false _ Hy)].
  all: simpl; rewrite bool_decide_eq_true; try contradiction.
  all: intros _; split; congruence.
Qed.

End BackToTopFade.

(** ** Back to top: the click *)

Section BackToTopClick.

Lemma select_root (pg : page) (e : element) :
  e ∈ document pg → tagName e = "html" → select root_and_body pg ≠ [].
Proof.
  intros Hin Ht Hnil.
  assert (He : e ∈ select root_and_body pg).
  { apply elem_of_select; [done|]. split; [done|]. simpl. by rewrite Ht. }
  rewrite Hnil in He. by apply elem_of_nil in He.
Qed.

(** Without jQuery's effects the handler throws: it does not return
    [false], and nothing is animated. *)
Lemma back_to_top_click_throws (g : globals) (pg : page) :
  easing g = None →
  back_to_top_click g pg = (Throw (TypeError "animate"), pg).
Proof. unfold back_to_top_click. by intros ->. Qed.

(** C7. A click on [.back-to-top], at any offset, with jQuery's effects
    loaded ([$.easing] is defined and holds jQuery's standard [swing]): the
    handler starts one animation of the scroll position of the root and the
    body to 0 over 1500 ms, with the curve [easeInOutExpo] when the easing
    plugin provides it and [swing] otherwise, in both cases a function that
    [$.easing] has; it returns [false], so the default action of the anchor
    is prevented; and once the animation has run the window is at offset 0,
    the address unchanged. *)
Theorem back_to_top_click_spec (g : globals) (pg : page) (ev : event)
    (root : element) (curves : gset string) :
  easing g = Some curves → "swing" ∈ curves →
  root ∈ document pg → tagName root = "html" →
  let a := {| fx_on := root_and_body;
              fx_prop := FxScrollTop (of_Z 0);
              fx_duration := 1500;
              fx_easing := if easing_has g "easeInOutExpo"
                           then "easeInOutExpo" else "swing" |} in
  back_to_top_click g pg = (Normal ReturnFalse, start a pg) ∧
  fx_easing a ∈ curves ∧
  (∀ r, (back_to_top_click g pg).1 = Normal r →
        defaultPrevented (after_handler r ev) = true) ∧
  pageYOffset (finish a (back_to_top_click g pg).2) = of_Z 0 ∧
  fragment (finish a (back_to_top_click g pg).2) = fragment pg.
Proof.
  intros Hg Hswing Hin Ht a.
  assert (Hclick : back_to_top_click g pg = (Normal ReturnFalse, start a pg)).
  { unfold back_to_top_click. by rewrite Hg. }
  rewrite Hclick. split_and!; try reflexivity.
  - unfold a, easing_has. rewrite Hg. simpl. by case_bool_decide.
  - simpl. by intros r [= <-].
  - unfold finish; simpl. fold root_and_body.
    destruct (select root_and_body (start a pg)) eqn:Hs; [|reflexivity].
    exfalso; revert Hs; by apply (select_root (start a pg) root).
  - unfold finish; simpl. fold root_and_body.
    destruct (select root_and_body (start a pg)) eqn:Hs; reflexivity.
Qed.

Lemma back_to_top_click_spec_witness :
  let g := {| WOW := true; fn := Some ∅; easing := Some {["swing"]} |} in
  let pg := {| document := [html_root]; pageYOffset := of_Z 900;
               fragment := None; fx := [] |} in
  let ev := {| defaultPrevented := false; propagationStopped := false |} in
  let a := Animation root_and_body (FxScrollTop (of_Z 0)) 1500 "swing" in
  back_to_top_click g pg = (Normal ReturnFalse, start a pg) ∧
  defaultPrevented (after_handler ReturnFalse ev) = true ∧
  pageYOffset (finish a (back_to_top_click g pg).2) = of_Z 0.
Proof.
  intros g pg ev a.
  destruct (back_to_top_click_spec g pg ev html_root {["swing"]} eq_refl)
    as (H1 & _ & H2 & H3 & _).
  - set_solver.
  - apply list_elem_of_here.
  - reflexivity.
  - split_and!; [exact H1 | apply H2; by rewrite H1 | exact H3].
Defined.

End BackToTopClick.

(** ** Placeholder links *)

Section PlaceholderLink.

(** C8. A click on an anchor whose [href] is [#]: without the attribute
    [data-bs-toggle] the interceptor prevents the default action, and the
    click leaves the scroll offset and the address as they were; with the
    attribute it returns at once and hands the event on untouched. *)
Theorem placeholder_link_spec (this : element) (ev : event) (pg : page) :
  matches (document pg) (ByAttr "a" "href" "#") this = true →
  (hasAttribute this "data-bs-toggle" = false →
     defaultPrevented (placeholder_link this ev).2 = true ∧
     click_placeholder this ev pg = pg) ∧
  (hasAttribute this "data-bs-toggle" = true →
     placeholder_link this ev = (ReturnUndefined, ev) ∧
     after_handler (placeholder_link this ev).1 (placeholder_link this ev).2 = ev).
Proof.
  intros _. unfold click_placeholder, placeholder_link.
  split; intros ->; simpl; auto.
Qed.

Lemma placeholder_link_spec_witness :
  let this := anchor {["href" := "#"]} in
  let ev := {| defaultPrevented := false; propagationStopped := false |} in
  let pg := {| document := [this]; pageYOffset := of_Z 700;
               fragment := None; fx := [] |} in
  defaultPrevented (placeholder_link this ev).2 = true ∧
  click_placeholder this ev pg = pg.
Proof.
  intros this ev pg.
  apply (placeholder_link_spec this ev pg); vm_compute; reflexivity.
Defined.

End PlaceholderLink.

(** ** Start-up *)

Section Startup.

(** The guarded calls do throw when made without their library. *)
Lemma new_WOW_init_throws g log :
  WOW g = false → new_WOW_init g log = (Throw (ReferenceError "WOW"), log).
Proof. unfold new_WOW_init. by intros ->. Qed.

Lemma owlCarousel_throws g sel options log :
  fn_has g "owlCarousel" = false →
  owlCarousel g sel options log = (Throw (TypeError "owlCarousel"), log).
Proof. unfold owlCarousel, method. by intros ->. Qed.

(** The run with jQuery itself loaded. *)
Lemma main_runs (g : globals) :
  fn_has g "scroll" = true → fn_has g "on" = true → fn_has g "click" = true →
  main g [] = (Normal (), startup_log g).
Proof.
  intros Hscroll Hon Hclick.
  unfold startup_log, main, spinner, scroll, click, on, owlCarousel, method,
    when, new_WOW_init.
  rewrite Hscroll, Hon, Hclick.
  destruct (WOW g), (fn_has g "owlCarousel"); reflexivity.
Qed.

(** C6. With jQuery itself loaded, the run of the script never throws,
    whether the carousel plugin and the animation library are there or not:
    it ends normally, having made the guarded calls of the libraries that
    are present and no others, and having registered the sticky-navbar and
    back-to-top scroll handlers, the quantity and back-to-top click handlers
    and the placeholder-link interceptor. *)
Theorem startup_never_throws (g : globals) :
  fn_has g "scroll" = true → fn_has g "on" = true → fn_has g "click" = true →
  main g [] = (Normal (), startup_log g) ∧
  (WOW g = false → WowInit ∉ startup_log g) ∧
  (fn_has g "owlCarousel" = false →
     ∀ sel options, OwlCarousel sel options ∉ startup_log g) ∧
  On Window "scroll" None StickyNavbar ∈ startup_log g ∧
  (∀ c, c ∈ handler_registrations → c ∈ startup_log g).
Proof.
  intros Hscroll Hon Hclick.
  split_and!; [by apply main_runs | | | |]; unfold startup_log.
  - intros ->. unfold handler_registrations, carousel_calls.
    destruct (fn_has g "owlCarousel"); simpl;
      rewrite !elem_of_cons, elem_of_nil; intuition discriminate.
  - intros -> sel options. unfold handler_registrations.
    destruct (WOW g); simpl;
      rewrite !elem_of_cons, elem_of_nil; intuition discriminate.
  - destruct (WOW g); simpl; rewrite !elem_of_cons; auto.
  - intros c Hc. rewrite !elem_of_app. auto.
Qed.

Lemma startup_never_throws_witness :
  main jquery_only [] = (Normal (), startup_log jquery_only) ∧
  (WowInit ∉ startup_log jquery_only) ∧
  (∀ sel options, OwlCarousel sel options ∉ startup_log jquery_only).
Proof.
  destruct (startup_never_throws jquery_only) as (H1 & H2 & H3 & _);
    try (vm_compute; reflexivity).
  split_and!; [exact H1 | apply H2 | apply H3]; vm_compute; reflexivity.
Defined.

(** *** The carousels *)

(** The hero carousel is initialised with an options record that has no
    breakpoints at all. *)
Lemma header_carousel_has_no_breakpoints :
  (ByClass "header-carousel", header_options)
    ∈ carousels (main with_carousel []).2 ∧
  breakpoints header_options = None.
Proof. split; [vm_compute; apply list_elem_of_here | reflexivity]. Qed.

Lemma options_distinct :
  NoDup [header_options; productList_options; productImg_options;
         single_options; related_options].
Proof.
  repeat (apply NoDup_cons; split);
    rewrite ?not_elem_of_cons; try apply NoDup_nil_2;
    repeat split; try apply not_elem_of_nil;
    intros H; vm_compute in H; discriminate H.
Qed.

(** C9, as the script has it.  With the carousel plugin loaded, the run
    initialises each of the five carousel regions exactly once, in the order
    of the script, with five pairwise distinct options records; each record
    sets [autoplay], [loop] and [nav] and gives the two arrows of [navText];
    the product-list and the related carousels carry breakpoints, at the
    widths 0, 576, 768, 992 and 1200, and the hero, product-image and
    single-product carousels carry none. *)
Theorem carousels_initialised (g : globals) :
  fn_has g "scroll" = true → fn_has g "on" = true → fn_has g "click" = true →
  fn_has g "owlCarousel" = true →
  let cs := carousels (main g []).2 in
  cs.*1 = [ ByClass "header-carousel"; ByClass "productList-carousel";
            ByClass "productImg-carousel"; ByClass "single-carousel";
            ByClass "related-carousel" ] ∧
  NoDup cs.*1 ∧ NoDup cs.*2 ∧
  Forall (λ o, prop "autoplay" o = Some (VBool true) ∧
               prop "loop" o = Some (VBool true) ∧
               prop "nav" o = Some (VBool true) ∧
               ∃ left right, prop "navText" o = Some (VArr [left; right])) cs.*2 ∧
  breakpoints <$> cs.*2 =
    [ None; Some standard_breakpoints; None; None; Some standard_breakpoints ].
Proof.
  intros Hscroll Hon Hclick Howl cs.
  assert (Hcs : cs = [ (ByClass "header-carousel", header_options);
                       (ByClass "productList-carousel", productList_options);
                       (ByClass "productImg-carousel", productImg_options);
                       (ByClass "single-carousel", single_options);
                       (ByClass "related-carousel", related_options) ]).
  { subst cs.
    rewrite (main_runs g Hscroll Hon Hclick).
    unfold startup_log. rewrite Howl. by destruct (WOW g). }
  rewrite Hcs. simpl. split_and!.
  - reflexivity.
  - repeat (apply NoDup_cons; split);
      rewrite ?not_elem_of_cons; try apply NoDup_nil_2;
      repeat split; try apply not_elem_of_nil; discriminate.
  - apply options_distinct.
  - repeat constructor; by eexists _, _.
  - reflexivity.
Qed.

Lemma carousels_initialised_witness :
  let cs := carousels (main with_carousel []).2 in
  NoDup cs.*1 ∧ NoDup cs.*2 ∧
  breakpoints <$> cs.*2 =
    [ None; Some standard_breakpoints; None; None; Some standard_breakpoints ].
Proof.
  intros cs.
  destruct (carousels_initialised with_carousel) as (_ & H2 & H3 & _ & H5);
    try (vm_compute; reflexivity).
  split_and!; [exact H2 | exact H3 | exact H5].
Defined.

End Startup.

(** ** Sums and differences of Numbers *)

Section NumberFacts.

Lemma digits2_size (p : positive) : digits2_pos p = Pos.size p.
Proof. induction p; simpl; congruence. Qed.

Lemma digits2_bounds (p : positive) :
  2 ^ (Zpos (digits2_pos p) - 1) ≤ Zpos p < 2 ^ Zpos (digits2_pos p).
Proof.
  rewrite digits2_size.
  pose proof (Pos.size_gt p) as Hgt. pose proof (Pos.size_le p) as Hle.
  apply Pos2Z.pos_lt_pos in Hgt. apply Pos2Z.pos_le_pos in Hle.
  rewrite Pos2Z.inj_pow in Hgt, Hle.
  change (Zpos p~0) with (2 * Zpos p) in Hle.
  replace (Zpos (Pos.size p)) with (Z.succ (Zpos (Pos.size p) - 1)) in Hle by lia.
  rewrite Z.pow_succ_r in Hle by lia. lia.
Qed.

(** Doubling [k] times. *)
Lemma iter_xO (m k : positive) :
  Zpos (Pos.iter xO m k) = Zpos m * 2 ^ Zpos k.
Proof.
  induction k as [|k IH] using Pos.peano_ind.
  - simpl. lia.
  - rewrite Pos.iter_succ, Pos2Z.inj_succ, Z.pow_succ_r by lia.
    change (Zpos (Pos.iter xO m k)~0) with (2 * Zpos (Pos.iter xO m k)). lia.
Qed.

Lemma digits2_iter_xO (m k : positive) :
  digits2_pos (Pos.iter xO m k) = (digits2_pos m + k)%positive.
Proof.
  induction k as [|k IH] using Pos.peano_ind.
  - simpl. lia.
  - rewrite Pos.iter_succ. simpl. rewrite IH. lia.
Qed.

Lemma iter_pos_iter {A} (f : A → A) (p : positive) (x : A) :
  iter_pos f p x = Pos.iter f x p.
Proof.
  revert x. induction p as [p IH|p IH|]; intros x; simpl.
  - by rewrite !IH, <- !Pos.iter_swap.
  - by rewrite !IH.
  - reflexivity.
Qed.

(** Halving [k] times a mantissa that ends in [k] zeros loses nothing. *)
Lemma shr_trailing_zeros (q k : positive) :
  iter_pos shr_1 k (Build_shr_record (Zpos (Pos.iter xO q k)) false false) =
  Build_shr_record (Zpos q) false false.
Proof.
  rewrite iter_pos_iter.
  induction k as [|k IH] using Pos.peano_ind.
  - reflexivity.
  - rewrite Pos.iter_succ at 1. rewrite Pos.iter_succ, <- Pos.iter_swap.
    simpl. exact IH.
Qed.

Lemma fexp_normal (e : Z) : -1074 ≤ e → fexp prec emax (53 + e) = e.
Proof. unfold fexp, emin, prec, emax. lia. Qed.

(** A mantissa of 53 bits is left as it is by the rounding. *)
Lemma binary_round_aux_canonical (sx : bool) (m : positive) (e : Z) :
  digits2_pos m = 53%positive → -1074 ≤ e ≤ 971 →
  binary_round_aux prec emax sx (Zpos m) e loc_Exact = S754_finite sx m e.
Proof.
  intros Hd He. unfold binary_round_aux, shr_fexp. simpl Zdigits2.
  rewrite Hd, fexp_normal, Z.sub_diag by lia. simpl.
  rewrite Hd, fexp_normal, Z.sub_diag by lia. simpl.
  replace (e <=? emax - prec) with true; [reflexivity|].
  symmetry. apply Z.leb_le. unfold emax, prec. lia.
Qed.

(** Rounding [q * 2^k] at the exponent [t - k], where [q] has 53 bits:
    the result is [q] at the exponent [t], exactly. *)
Lemma binary_round_exact (sx : bool) (q M : positive) (t k : Z) :
  digits2_pos q = 53%positive → -1074 ≤ t ≤ 971 → 0 ≤ k →
  Zpos M = Zpos q * 2 ^ k →
  binary_round prec emax sx M (t - k) = S754_finite sx q t.
Proof.
  intros Hd Ht Hk HM.
  assert (HdM : Zpos (digits2_pos M) = 53 + k).
  { destruct k as [|k|k]; [| |lia].
    - rewrite Z.mul_1_r in HM. injection HM as ->. rewrite Hd. lia.
    - rewrite <- iter_xO in HM. injection HM as ->.
      rewrite digits2_iter_xO, Hd. lia. }
  unfold binary_round.
  rewrite HdM. replace (53 + k + (t - k)) with (53 + t) by lia.
  rewrite fexp_normal by lia.
  unfold shl_align. replace (t - (t - k)) with k by lia.
  destruct k as [|k|k]; [| |lia].
  - rewrite Z.mul_1_r in HM. injection HM as ->.
    rewrite Z.sub_0_r. by apply binary_round_aux_canonical.
  - rewrite <- iter_xO in HM. injection HM as ->.
    unfold binary_round_aux, shr_fexp. simpl Zdigits2.
    rewrite digits2_iter_xO, Hd.
    replace (Zpos (53 + k) + (t - Zpos k)) with (53 + t) by lia.
    rewrite fexp_normal by lia.
    replace (t - (t - Zpos k)) with (Zpos k) by lia.
    simpl shr_record_of_loc. unfold shr.
    rewrite shr_trailing_zeros. simpl.
    replace (t - Zpos k + Zpos k) with t by lia.
    rewrite Hd, fexp_normal, Z.sub_diag by lia. simpl.
    replace (t <=? emax - prec) with true; [reflexivity|].
    symmetry. apply Z.leb_le. unfold emax, prec. lia.
Qed.

(** Rounding [p] at the exponent [e], where [p * 2^k] has 53 bits: the
    mantissa is brought to 53 bits, exactly. *)
Lemma binary_round_widen (sx : bool) (p q : positive) (e k : Z) :
  digits2_pos q = 53%positive → 0 ≤ k → -1074 ≤ e - k ≤ 971 →
  Zpos q = Zpos p * 2 ^ k →
  binary_round prec emax sx p e = S754_finite sx q (e - k).
Proof.
  intros Hd Hk He Hq.
  assert (Hdp : Zpos (digits2_pos p) = 53 - k).
  { destruct k as [|k|k]; [| |lia].
    - rewrite Z.mul_1_r in Hq. injection Hq as ->. rewrite Hd. lia.
    - rewrite <- iter_xO in Hq. injection Hq as ->.
      rewrite digits2_iter_xO in Hd. lia. }
  unfold binary_round. rewrite Hdp.
  replace (53 - k + e) with (53 + (e - k)) by lia.
  rewrite fexp_normal by lia.
  unfold shl_align. replace (e - k - e) with (- k) by lia.
  destruct k as [|k|k]; [| |lia]; simpl Z.opp; cbv iota.
  - rewrite Z.mul_1_r in Hq. injection Hq as ->.
    rewrite Z.sub_0_r in *. by apply binary_round_aux_canonical.
  - rewrite <- iter_xO in Hq. injection Hq as ->.
    by apply binary_round_aux_canonical.
Qed.

(** The Number of a whole number between 1 and 2^53 - 1: a mantissa [q] of
    53 bits and an exponent [t] with [n = q * 2^t]. *)
Lemma of_Z_normal (n : Z) :
  0 < n < 2 ^ 53 →
  ∃ (q : positive) (t : Z),
    of_Z n = S754_finite false q t ∧ digits2_pos q = 53%positive ∧
    -52 ≤ t ≤ 0 ∧ Zpos q = n * 2 ^ (- t).
Proof.
  intros Hn. destruct n as [|p|p]; [lia| |lia].
  pose proof (digits2_bounds p) as Hb.
  assert (Hd : 1 ≤ Zpos (digits2_pos p) ≤ 53).
  { split; [lia|].
    destruct (Z_le_gt_dec (Zpos (digits2_pos p)) 53) as [?|Hgt]; [done|].
    assert (2 ^ 53 ≤ 2 ^ (Zpos (digits2_pos p) - 1))
      by (apply Z.pow_le_mono_r; lia).
    lia. }
  set (k := 53 - Zpos (digits2_pos p)).
  assert (Hq : ∃ q, Zpos q = Zpos p * 2 ^ k).
  { assert (0 < Zpos p * 2 ^ k) by (apply Z.mul_pos_pos; [lia|apply Z.pow_pos_nonneg; lia]).
    destruct (Zpos p * 2 ^ k) as [|q|q] eqn:E; [lia| |lia]. by exists q. }
  destruct Hq as [q Hq].
  assert (Hdq : digits2_pos q = 53%positive).
  { subst k. destruct (53 - Zpos (digits2_pos p)) as [|k|k] eqn:Ek; [| |lia].
    - rewrite Z.mul_1_r in Hq. injection Hq as ->. lia.
    - rewrite <- iter_xO in Hq. injection Hq as ->.
      rewrite digits2_iter_xO. lia. }
  exists q, (- k). split_and!; try (subst k; lia).
  - unfold of_Z, binary_normalize.
    replace (- k) with (0 - k) by lia.
    apply binary_round_widen; try done; subst k; lia.
  - by rewrite Z.opp_involutive.
Qed.

Lemma shl_align_value (m : positive) (e e' : Z) :
  e' ≤ e → Zpos (fst (shl_align m e e')) = Zpos m * 2 ^ (e - e').
Proof.
  intros He. unfold shl_align.
  destruct (e' - e) as [|d|d] eqn:Ed; [|lia|]; simpl fst.
  - replace (e - e') with 0 by lia. lia.
  - rewrite iter_xO. f_equal. f_equal. lia.
Qed.

Lemma of_Z_one : of_Z 1 = S754_finite false 4503599627370496 (-52).
Proof. reflexivity. Qed.

Lemma pow2_split (t : Z) : -52 ≤ t ≤ 0 → 2 ^ (- t) * 2 ^ (t + 52) = 2 ^ 52.
Proof. intros Ht. rewrite <- Z.pow_add_r by lia. f_equal. lia. Qed.

(** [c * 2^52] at the exponent -52 rounds to the Number of [c]. *)
Lemma round_scaled (c : Z) (M : positive) :
  0 < c < 2 ^ 53 → Zpos M = c * 2 ^ 52 →
  binary_round prec emax false M (-52) = of_Z c.
Proof.
  intros Hc HM.
  destruct (of_Z_normal c Hc) as (q & t & -> & Hd & Ht & Hq).
  replace (-52) with (t - (t + 52)) by lia.
  apply binary_round_exact; try done; try lia.
  rewrite Hq, HM, <- Z.mul_assoc, pow2_split; lia.
Qed.

(** Below 2^53 the sum of a whole number and 1 is exact. *)
Lemma add_one (n : Z) :
  0 ≤ n → n + 1 < 2 ^ 53 → add (of_Z n) (of_Z 1) = of_Z (n + 1).
Proof.
  intros Hn Hlt.
  destruct (Z.eq_dec n 0) as [->|Hne]; [reflexivity|].
  destruct (of_Z_normal n) as (q & t & Hof & Hd & Ht & Hq); [lia|].
  rewrite Hof, of_Z_one. unfold add, SFadd.
  replace (Z.min t (-52)) with (-52) by lia.
  rewrite !shl_align_value by lia. unfold cond_Zopp.
  assert (HM : Zpos q * 2 ^ (t - -52) + 4503599627370496 * 2 ^ (-52 - -52)
               = (n + 1) * 2 ^ 52).
  { rewrite Hq, <- Z.mul_assoc. replace (t - -52) with (t + 52) by lia.
    rewrite pow2_split by lia. change (2 ^ (-52 - -52)) with 1.
    change (2 ^ 52) with 4503599627370496. lia. }
  rewrite HM.
  destruct ((n + 1) * 2 ^ 52) as [|M|M] eqn:E; [lia| |lia].
  unfold binary_normalize. apply round_scaled; [lia|done].
Qed.

(** So is the difference of a whole number and 1. *)
Lemma sub_one (n : Z) :
  1 ≤ n < 2 ^ 53 → sub (of_Z n) (of_Z 1) = of_Z (n - 1).
Proof.
  intros Hn.
  destruct (of_Z_normal n) as (q & t & Hof & Hd & Ht & Hq); [lia|].
  rewrite Hof, of_Z_one. unfold sub, SFsub.
  replace (Z.min t (-52)) with (-52) by lia.
  rewrite !shl_align_value by lia. unfold cond_Zopp.
  assert (HM : Zpos q * 2 ^ (t - -52) - 4503599627370496 * 2 ^ (-52 - -52)
               = (n - 1) * 2 ^ 52).
  { rewrite Hq, <- Z.mul_assoc. replace (t - -52) with (t + 52) by lia.
    rewrite pow2_split by lia. change (2 ^ (-52 - -52)) with 1.
    change (2 ^ 52) with 4503599627370496. lia. }
  rewrite HM.
  destruct (Z.eq_dec n 1) as [->|Hne]; [reflexivity|].
  destruct ((n - 1) * 2 ^ 52) as [|M|M] eqn:E; [lia| |lia].
  unfold binary_normalize. apply round_scaled; [lia|done].
Qed.

Lemma gtb_zero (n : Z) :
  0 ≤ n < 2 ^ 53 → gtb (of_Z n) (of_Z 0) = (0 <? n).
Proof.
  intros Hn. destruct (Z.eq_dec n 0) as [->|Hne]; [reflexivity|].
  destruct (of_Z_normal n) as (q & t & -> & _); [lia|].
  symmetry. apply Z.ltb_lt. lia.
Qed.

(** *** Signs *)

Lemma binary_round_aux_not_negative (m e : Z) (l : location) :
  ltb (binary_round_aux prec emax false m e l) (of_Z 0) = false.
Proof.
  unfold binary_round_aux.
  destruct (shr_fexp prec emax m e l) as [mrs' e'].
  destruct (shr_fexp prec emax _ e' loc_Exact) as [mrs'' e''].
  destruct (shr_m mrs''); [reflexivity| |reflexivity].
  by destruct (e'' <=? emax - prec).
Qed.

Lemma binary_normalize_not_negative (d e : Z) :
  0 ≤ d → ltb (binary_normalize prec emax d e false) (of_Z 0) = false.
Proof.
  intros Hd. destruct d as [|M|M]; [reflexivity| |lia].
  unfold binary_normalize, binary_round.
  destruct (shl_align _ _ _). apply binary_round_aux_not_negative.
Qed.

(** A Number that is at least 1 has a 53-bit mantissa or is 1 itself, so
    that taking 1 away from it does not go below 0. *)
Lemma sub_one_not_negative (v : number) :
  valid_binary prec emax v = true → SFleb (of_Z 1) v = true →
  ltb (sub v (of_Z 1)) (of_Z 0) = false.
Proof.
  intros Hv Hle. rewrite of_Z_one in *.
  destruct v as [s|s| |s m e]; try (by destruct s); try discriminate.
  destruct s; [discriminate|].
  unfold sub, SFsub.
  unfold SFleb, SFcompare in Hle.
  simpl in Hv. unfold bounded, canonical_mantissa, fexp, emin, prec, emax in Hv.
  apply andb_prop in Hv as [Hc _]. apply Z.eqb_eq in Hc.
  pose proof (digits2_bounds m) as Hb.
  apply binary_normalize_not_negative. unfold cond_Zopp.
  destruct (Z.compare_spec (-52) e) as [He|He|He]; [| |discriminate].
  - subst e. rewrite Z.min_id, !shl_align_value by lia.
    replace (-52 - -52) with 0 by lia. rewrite !Z.mul_1_r.
    change (Pos.compare_cont Eq 4503599627370496 m)
      with (4503599627370496 ?= m)%positive in Hle.
    destruct (Pos.compare_spec 4503599627370496 m); try discriminate; lia.
  - replace (Z.min e (-52)) with (-52) by lia.
    rewrite !shl_align_value by lia.
    replace (-52 - -52) with 0 by lia. rewrite Z.mul_1_r.
    assert (Hd : Zpos (digits2_pos m) = 53) by lia.
    rewrite Hd in Hb. change (2 ^ (53 - 1)) with 4503599627370496 in Hb.
    assert (0 < 2 ^ (e - -52)) by (apply Z.pow_pos_nonneg; lia).
    nia.
Qed.

End NumberFacts.

(** ** Every Number that is read or computed is in canonical form *)

Section Canonical.

Lemma Zdigits2_bounds (m : Z) :
  0 < m → 2 ^ (Zdigits2 m - 1) ≤ m < 2 ^ Zdigits2 m.
Proof. destruct m as [|p|p]; try lia. intros _. apply digits2_bounds. Qed.

Lemma Zdigits2_pos (m : Z) : 0 < m → 0 < Zdigits2 m.
Proof. destruct m; simpl; lia. Qed.

Lemma Zdigits2_unique (m d : Z) :
  2 ^ (d - 1) ≤ m < 2 ^ d → 0 < d → Zdigits2 m = d.
Proof.
  intros Hm Hd.
  assert (0 < m) by (pose proof (Z.pow_pos_nonneg 2 (d - 1)); lia).
  pose proof (Zdigits2_bounds m) as Hb. pose proof (Zdigits2_pos m).
  destruct (Z.lt_trichotomy (Zdigits2 m) d) as [Hlt|[Heq|Hgt]]; [|done|].
  - assert (2 ^ Zdigits2 m ≤ 2 ^ (d - 1)) by (apply Z.pow_le_mono_r; lia). lia.
  - assert (2 ^ d ≤ 2 ^ (Zdigits2 m - 1)) by (apply Z.pow_le_mono_r; lia). lia.
Qed.

(** Halving, on a mantissa that is not negative. *)
Lemma shr_1_m (mrs : shr_record) :
  0 ≤ shr_m mrs → shr_m (shr_1 mrs) = shr_m mrs / 2.
Proof.
  destruct mrs as [m r s]. simpl. intros Hm.
  rewrite <- Z.div2_div.
  destruct m as [|[p|p|]|p]; try reflexivity; lia.
Qed.

Lemma shr_iter_m (n : positive) (mrs : shr_record) :
  0 ≤ shr_m mrs → shr_m (iter_pos shr_1 n mrs) = shr_m mrs / 2 ^ Zpos n.
Proof.
  rewrite iter_pos_iter. intros Hm.
  induction n as [|n IH] using Pos.peano_ind.
  - simpl. by apply shr_1_m.
  - rewrite Pos.iter_succ, shr_1_m, IH.
    + rewrite Z.div_div by (try apply Z.pow_pos_nonneg; lia).
      rewrite Pos2Z.inj_succ, Z.pow_succ_r by lia. f_equal. lia.
    + rewrite IH. apply Z.div_pos; [done|]. apply Z.pow_pos_nonneg; lia.
Qed.

(** The mantissa and the exponent after [shr]. *)
Lemma shr_spec (mrs : shr_record) (e n : Z) :
  0 ≤ shr_m mrs → 0 ≤ n →
  shr_m (fst (shr mrs e n)) = shr_m mrs / 2 ^ n ∧ snd (shr mrs e n) = e + n.
Proof.
  intros Hm Hn. unfold shr. destruct n as [|n|n]; [| |lia]; simpl.
  - rewrite Z.div_1_r. lia.
  - split; [by apply shr_iter_m|done].
Qed.

Lemma round_nearest_even_range (m : Z) (l : location) :
  round_nearest_even m l = m ∨ round_nearest_even m l = m + 1.
Proof.
  unfold round_nearest_even.
  destruct l as [|[]]; auto. destruct (Z.even m); auto.
Qed.

Lemma shr_nonpos (mrs : shr_record) (e n : Z) : n ≤ 0 → shr mrs e n = (mrs, e).
Proof. intros Hn. unfold shr. destruct n; [done|lia|done]. Qed.

Lemma shr_record_of_loc_m (m : Z) (l : location) :
  shr_m (shr_record_of_loc m l) = m.
Proof. by destruct l as [|[]]. Qed.

(** After the first shift the mantissa has at most 53 bits, and exactly 53
    above the smallest exponent. *)
Lemma first_shift_range (m e : Z) :
  0 ≤ m →
  let t := fexp prec emax (Zdigits2 m + e) in
  e ≤ t →
  0 ≤ m / 2 ^ (t - e) < 2 ^ 53 ∧
  (-1074 < t → 2 ^ 52 ≤ m / 2 ^ (t - e)).
Proof.
  intros Hm t Ht. subst t. unfold fexp, emin, prec, emax in *.
  assert (Hp : 0 < 2 ^ (Z.max (Zdigits2 m + e - 53) (3 - 1024 - 53) - e))
    by (apply Z.pow_pos_nonneg; lia).
  destruct (Z.eq_dec m 0) as [->|Hne].
  - simpl Zdigits2 in *. rewrite Z.div_0_l by lia.
    split; [split; [lia|by apply Z.pow_pos_nonneg]|lia].
  - pose proof (Zdigits2_bounds m) as Hb. pose proof (Zdigits2_pos m) as Hd.
    set (n := Z.max (Zdigits2 m + e - 53) (3 - 1024 - 53) - e) in *.
    split; [split|].
    + apply Z.div_pos; lia.
    + apply Z.div_lt_upper_bound; [done|].
      rewrite <- Z.pow_add_r by lia.
      assert (2 ^ Zdigits2 m ≤ 2 ^ (n + 53)) by (apply Z.pow_le_mono_r; lia).
      lia.
    + intros Hn. apply Z.div_le_lower_bound; [done|].
      rewrite <- Z.pow_add_r by lia.
      replace (n + 52) with (Zdigits2 m - 1) by lia. lia.
Qed.

(** The rounding of a mantissa [m] at an exponent [e] that is not above the
    exponent of the result yields a Number in canonical form. *)
Lemma binary_round_aux_valid (sx : bool) (m e : Z) (l : location) :
  0 ≤ m → e ≤ fexp prec emax (Zdigits2 m + e) →
  valid_binary prec emax (binary_round_aux prec emax sx m e l) = true.
Proof.
  intros Hm He. pose proof (first_shift_range m e Hm He) as [Hr Hn].
  unfold binary_round_aux, shr_fexp.
  set (t := fexp prec emax (Zdigits2 m + e)) in *.
  assert (Ht : -1074 ≤ t) by (subst t; unfold fexp, emin, prec, emax; lia).
  destruct (shr_spec (shr_record_of_loc m l) e (t - e)) as [H1 H2];
    [by rewrite shr_record_of_loc_m | lia |].
  rewrite shr_record_of_loc_m in H1.
  destruct (shr (shr_record_of_loc m l) e (t - e)) as [mrs' e']. simpl in H1, H2.
  replace e' with t by lia. clear H2 e'.
  set (m'' := round_nearest_even (shr_m mrs') (loc_of_shr_record mrs')).
  assert (Hm'' : 0 ≤ m'' ≤ 2 ^ 53 ∧ (-1074 < t → 2 ^ 52 ≤ m'')).
  { subst m''. rewrite <- H1 in Hr, Hn.
    destruct (round_nearest_even_range (shr_m mrs') (loc_of_shr_record mrs'))
      as [-> | ->]; split; try lia; intros Hlt; specialize (Hn Hlt); lia. }
  clearbody m''. clear H1 Hr Hn mrs'. destruct Hm'' as [Hr Hn].
  change (2 ^ 53) with 9007199254740992 in Hr.
  change (2 ^ 52) with 4503599627370496 in Hn.
  destruct (Z.eq_dec m'' 9007199254740992) as [->|Hne].
  - (* the rounding went up to 2^53 *)
    change (Zdigits2 9007199254740992) with 54.
    replace (fexp prec emax (54 + t) - t) with 1
      by (unfold fexp, emin, prec, emax; lia).
    change (shr (shr_record_of_loc 9007199254740992 loc_Exact) t 1)
      with (Build_shr_record 4503599627370496 false false, t + 1).
    cbv beta iota. simpl shr_m.
    destruct (t + 1 <=? emax - prec) eqn:Hle; [|reflexivity].
    simpl. unfold bounded, canonical_mantissa. rewrite Hle, andb_true_r.
    change (Zpos (digits2_pos 4503599627370496)) with 53.
    unfold fexp, emin, prec, emax. apply Z.eqb_eq. lia.
  - destruct (Z.eq_dec m'' 0) as [->|Hpos].
    + rewrite shr_nonpos; [reflexivity|].
      simpl. unfold fexp, emin, prec, emax. lia.
    + pose proof (Zdigits2_bounds m'') as Hb.
      pose proof (Zdigits2_pos m'') as Hd.
      assert (Hd53 : Zdigits2 m'' ≤ 53).
      { destruct (Z_le_gt_dec (Zdigits2 m'') 53) as [?|Hgt]; [done|].
        assert (2 ^ 53 ≤ 2 ^ (Zdigits2 m'' - 1)) by (apply Z.pow_le_mono_r; lia).
        change (2 ^ 53) with 9007199254740992 in *. lia. }
      assert (Hdn : -1074 < t → Zdigits2 m'' = 53).
      { intros Hlt. apply Zdigits2_unique; [|lia].
        change (2 ^ (53 - 1)) with 4503599627370496.
        change (2 ^ 53) with 9007199254740992. lia. }
      rewrite shr_nonpos by (unfold fexp, emin, prec, emax; lia).
      simpl. destruct m'' as [|p|p]; [lia| |lia].
      destruct (t <=? emax - prec) eqn:Hle; [|reflexivity].
      simpl in *. unfold bounded, canonical_mantissa. rewrite Hle.
      rewrite andb_true_r. apply Z.eqb_eq.
      unfold fexp, emin, prec, emax. lia.
Qed.

Lemma binary_round_valid (sx : bool) (m : positive) (e : Z) :
  valid_binary prec emax (binary_round prec emax sx m e) = true.
Proof.
  unfold binary_round, shl_align.
  set (t := fexp prec emax (Zpos (digits2_pos m) + e)).
  destruct (t - e) as [|d|d] eqn:Hd;
    apply binary_round_aux_valid; try done; simpl Zdigits2; fold t; try lia.
  rewrite digits2_iter_xO.
  replace (Zpos (digits2_pos m + d) + t) with (Zpos (digits2_pos m) + e) by lia.
  fold t. lia.
Qed.

Lemma of_Z_valid (n : Z) : valid_binary prec emax (of_Z n) = true.
Proof.
  unfold of_Z, binary_normalize.
  destruct n; [reflexivity| |]; apply binary_round_valid.
Qed.

(** The quotient of two whole numbers, as the division prepares it for the
    rounding: enough bits are kept. *)
Lemma div_core_valid (sx : bool) (m1 m2 : positive) :
  valid_binary prec emax
    (let '(q, e', l) := SFdiv_core_binary prec emax (Zpos m1) 0 (Zpos m2) 0 in
     binary_round_aux prec emax sx q e' l) = true.
Proof.
  unfold SFdiv_core_binary.
  set (d1 := Zdigits2 (Zpos m1)). set (d2 := Zdigits2 (Zpos m2)).
  set (e' := Z.min (fexp prec emax (d1 + 0 - (d2 + 0))) (0 - 0)).
  pose proof (Zdigits2_bounds (Zpos m1) eq_refl) as Hb1.
  pose proof (Zdigits2_bounds (Zpos m2) eq_refl) as Hb2.
  pose proof (Zdigits2_pos (Zpos m1) eq_refl) as Hd1.
  pose proof (Zdigits2_pos (Zpos m2) eq_refl) as Hd2.
  fold d1 in Hb1, Hd1. fold d2 in Hb2, Hd2.
  assert (He' : e' ≤ 0) by (subst e'; lia).
  set (m' := match 0 - 0 - e' with
             | 0 => Zpos m1
             | Zpos _ => Z.shiftl (Zpos m1) (0 - 0 - e')
             | Zneg _ => 0
             end).
  assert (Hm' : m' = Zpos m1 * 2 ^ (- e')).
  { subst m'. replace (0 - 0 - e') with (- e') by lia.
    destruct (- e') as [|s|s] eqn:Hs; [lia| |lia].
    rewrite Z.shiftl_mul_pow2; lia. }
  destruct (Z.div_eucl m' (Zpos m2)) as [q r] eqn:Hqr.
  assert (Hq : q = m' / Zpos m2) by (unfold Z.div; by rewrite Hqr).
  assert (H2e : 0 < 2 ^ (- e')) by (apply Z.pow_pos_nonneg; lia).
  assert (Hq0 : 0 ≤ q) by (rewrite Hq; apply Z.div_pos; nia).
  apply binary_round_aux_valid; [done|].
  unfold fexp, emin, prec, emax.
  destruct (Z_le_gt_dec e' (-1074)) as [Hle|Hgt]; [lia|].
  assert (Hs : 53 + d2 - d1 ≤ - e').
  { subst e'. unfold fexp, emin, prec, emax in *. lia. }
  assert (Hq52 : 2 ^ 52 ≤ q).
  { rewrite Hq. apply Z.div_le_lower_bound; [lia|]. rewrite Hm'.
    assert (2 ^ (d2 + 52) ≤ 2 ^ (d1 - 1 + - e')) by (apply Z.pow_le_mono_r; lia).
    rewrite !Z.pow_add_r in * by lia.
    change (2 ^ 52) with 4503599627370496 in *. nia. }
  assert (Hdq : 53 ≤ Zdigits2 q).
  { destruct (Z_le_gt_dec 53 (Zdigits2 q)) as [?|Hlt]; [done|].
    assert (0 < q) by (change (2 ^ 52) with 4503599627370496 in *; lia).
    pose proof (Zdigits2_bounds q) as Hbq.
    assert (2 ^ Zdigits2 q ≤ 2 ^ 52) by (apply Z.pow_le_mono_r; lia).
    lia. }
  lia.
Qed.

Lemma of_decimal_valid (neg : bool) (m : N) (e : Z) :
  valid_binary prec emax (of_decimal neg m e) = true.
Proof.
  unfold of_decimal. destruct m as [|p]; [reflexivity|].
  destruct e as [|k|k].
  - destruct (Zpos p * 10 ^ 0); try reflexivity; apply binary_round_valid.
  - destruct (Zpos p * 10 ^ Zpos k); try reflexivity; apply binary_round_valid.
  - assert (Hpow : ∃ m2, Z.pow_pos 10 k = Zpos m2).
    { pose proof (Z.pow_pos_nonneg 10 (Zpos k)) as Hp.
      change (10 ^ Zpos k) with (Z.pow_pos 10 k) in Hp.
      destruct (Z.pow_pos 10 k) as [|m2|m2]; [lia| |lia]. by exists m2. }
    destruct Hpow as [m2 ->]. apply div_core_valid.
Qed.

(** What the two readings of a string give is in canonical form. *)
Lemma StrDecimalLiteral_valid (s : string) (v : number) (rest : string) :
  StrDecimalLiteral s = Some (v, rest) → valid_binary prec emax v = true.
Proof.
  assert (Hu : ∀ neg t, StrUnsignedDecimalLiteral neg t = Some (v, rest) →
                        valid_binary prec emax v = true).
  { intros neg t. unfold StrUnsignedDecimalLiteral.
    destruct (strip "Infinity" t); [by intros [= <- _]|].
    destruct (Digits 10 0 0 t) as [[i ni] r1].
    destruct (match r1 with
              | EmptyString => (i, O, r1)
              | String c t0 =>
                  if (code c =? 46)%N then Digits 10 i 0 t0 else (i, O, r1)
              end) as [[m nf] r2].
    destruct ni, nf; try discriminate;
      destruct (ExponentPart r2) as [[e r3]|];
      intros [= <- _]; apply of_decimal_valid. }
  unfold StrDecimalLiteral. destruct s as [|c s']; [discriminate|].
  destruct (code c =? 45)%N; [apply Hu|].
  destruct (code c =? 43)%N; apply Hu.
Qed.

Lemma parseFloat_valid (s : string) :
  valid_binary prec emax (parseFloat s) = true.
Proof.
  unfold parseFloat.
  destruct (StrDecimalLiteral (TrimStart s)) as [[v rest]|] eqn:E;
    [by apply StrDecimalLiteral_valid in E | reflexivity].
Qed.

Lemma ToNumber_valid (s : string) :
  valid_binary prec emax (ToNumber s) = true.
Proof.
  unfold ToNumber. destruct (TrimStart s) as [|c t]; [reflexivity|].
  destruct (NonDecimalIntegerLiteral (String c t)) as [[n rest]|].
  - destruct (all_StrWhiteSpace rest); [apply of_Z_valid|reflexivity].
  - destruct (StrDecimalLiteral (String c t)) as [[v rest]|] eqn:E;
      [|reflexivity].
    destruct (all_StrWhiteSpace rest); [|reflexivity].
    by apply StrDecimalLiteral_valid in E.
Qed.

End Canonical.

(** ** Product quantity *)

Section ProductQuantity.

(** *** What the two readings of the field have in common *)

Lemma code_inv (c : ascii) (n : N) : code c = n → c = ascii_of_N n.
Proof. intros <-. unfold code. by rewrite ascii_N_embedding. Qed.

(** A literal with a radix prefix starts with the digit 0, which is where
    [parseFloat] stops reading: it reads +0. *)
Lemma radix_prefix_reads_zero (t : string) (n : N) (rest : string) :
  NonDecimalIntegerLiteral t = Some (n, rest) →
  ∃ r, StrDecimalLiteral t = Some (S754_zero false, r).
Proof.
  unfold NonDecimalIntegerLiteral.
  destruct t as [|z [|x s']]; try discriminate.
  destruct (code z =? 48)%N eqn:Hz; [|discriminate].
  apply N.eqb_eq, code_inv in Hz. subst z.
  destruct (code x =? 120)%N eqn:H1;
    [|destruct (code x =? 88)%N eqn:H2;
      [|destruct (code x =? 111)%N eqn:H3;
        [|destruct (code x =? 79)%N eqn:H4;
          [|destruct (code x =? 98)%N eqn:H5;
            [|destruct (code x =? 66)%N eqn:H6; [|discriminate]]]]]].
  all: match goal with
       | H : (code ?c =? _)%N = true |- _ =>
           apply N.eqb_eq, code_inv in H; subst c
       end.
  all: intros _; eexists; reflexivity.
Qed.

(** Where [parseFloat] finds no number, the field is not above 0 under
    [ToNumber] either. *)
Lemma unparsable_not_positive (s : string) :
  parseFloat s = NaN → gtb (ToNumber s) (of_Z 0) = false.
Proof.
  unfold parseFloat, ToNumber.
  destruct (TrimStart s) as [|c t] eqn:Ht; [reflexivity|].
  destruct (NonDecimalIntegerLiteral (String c t)) as [[n rest]|] eqn:Hnd.
  - destruct (radix_prefix_reads_zero _ _ _ Hnd) as [r ->]. discriminate.
  - destruct (StrDecimalLiteral (String c t)) as [[v rest]|];
      [|reflexivity].
    intros ->. by destruct (all_StrWhiteSpace rest).
Qed.

(** *** The increment on a field that holds no number *)

Lemma increment_unparsable (button : element) (s : string) :
  hasClass button "btn-plus" = true → parseFloat s = NaN →
  quantity_click button s = NaN.
Proof. unfold quantity_click. by intros -> ->. Qed.

(** C2 (the script falls short of it).  On the empty field, and on a field
    that holds text, the increment writes NaN back, not 1. *)
Theorem increment_writes_NaN :
  quantity_click plus_button "" = NaN ∧
  quantity_click plus_button "abc" = NaN ∧
  quantity_click plus_button "" ≠ of_Z 1.
Proof. split_and!; [reflexivity | reflexivity | discriminate]. Qed.

(** *** The decrement on a field that holds no number *)

(** C10. On a field that is empty, or whose text reads as NaN under
    [parseFloat] or under [ToNumber], the decrement writes back +0: neither
    NaN nor a negative value. *)
Theorem decrement_unparsable (button : element) (s : string) :
  hasClass button "btn-plus" = false →
  s = "" ∨ parseFloat s = NaN ∨ ToNumber s = NaN →
  quantity_click button s = S754_zero false ∧
  is_nan (quantity_click button s) = false ∧
  ltb (quantity_click button s) (of_Z 0) = false.
Proof.
  intros Hb Hs.
  assert (H0 : quantity_click button s = S754_zero false).
  { unfold quantity_click. rewrite Hb.
    destruct Hs as [-> | [Hs | Hs]].
    - reflexivity.
    - by rewrite (unparsable_not_positive s Hs).
    - by rewrite Hs. }
  by rewrite H0.
Qed.

Lemma decrement_unparsable_witness :
  quantity_click minus_button "abc" = S754_zero false ∧
  is_nan (quantity_click minus_button "abc") = false ∧
  ltb (quantity_click minus_button "abc") (of_Z 0) = false.
Proof.
  apply (decrement_unparsable minus_button "abc").
  - vm_compute. reflexivity.
  - right; left. vm_compute. reflexivity.
Defined.

(** *** The decrement below 1 *)

(** C3 (the script falls short of it).  The field holds 0.5, which is not
    negative; the decrement writes -0.5 back, which is. *)
Theorem decrement_writes_negative :
  ToNumber "0.5" = one_half ∧ parseFloat "0.5" = one_half ∧
  SFleb (of_Z 0) one_half = true ∧
  quantity_click minus_button "0.5" = SFopp one_half ∧
  ltb (quantity_click minus_button "0.5") (of_Z 0) = true.
Proof. vm_compute. by split_and!. Qed.

(** The guard and the subtraction read the field differently: a literal with
    a radix prefix is above 0 for the guard and 0 for [parseFloat], and the
    decrement writes -1. *)
Example decrement_radix_prefix :
  ToNumber "0x10" = of_Z 16 ∧ parseFloat "0x10" = of_Z 0 ∧
  quantity_click minus_button "0x10" = of_Z (-1).
Proof. vm_compute. by split_and!. Qed.

(** *** A whole number in the field *)

Lemma uint_value_pos (d : uint) (a : positive) :
  uint_value (Npos a) d = Npos (Pos.of_uint_acc d a).
Proof.
  revert a. induction d; intros a; simpl; try reflexivity;
    rewrite <- IHd; f_equal; lia.
Qed.

Lemma uint_value_of_uint (d : uint) : uint_value 0 d = N.of_uint d.
Proof.
  unfold N.of_uint. induction d; simpl; try reflexivity; try exact IHd;
    apply uint_value_pos.
Qed.

Lemma Digits_step (c : ascii) (v acc : N) (k : nat) (s : string) :
  digit_value c = Some v → (v <? 10)%N = true →
  Digits 10 acc k (String c s) = Digits 10 (10 * acc + v) (S k) s.
Proof. intros Hc Hv. cbn [Digits]. by rewrite Hc, Hv. Qed.

Lemma Digits_uint (d : uint) (acc : N) (k : nat) :
  Digits 10 acc k (NilEmpty.string_of_uint d)
  = (uint_value acc d, (k + nb_digits d)%nat, EmptyString).
Proof.
  revert acc k. induction d; intros acc k;
    [simpl; by rewrite Nat.add_0_r| ..];
    cbn [NilEmpty.string_of_uint uint_value nb_digits];
    erewrite Digits_step by reflexivity;
    rewrite IHd; do 2 f_equal; lia.
Qed.

Lemma digits_literal (s : string) (m : N) (k : nat) :
  strip "Infinity" s = None → Digits 10 0 0 s = (m, S k, EmptyString) →
  StrUnsignedDecimalLiteral false s = Some (of_decimal false m 0, EmptyString).
Proof.
  unfold StrUnsignedDecimalLiteral. by intros -> ->.
Qed.

Lemma of_decimal_whole (n : N) : of_decimal false n 0 = of_Z (Z.of_N n).
Proof.
  destruct n as [|p]; [reflexivity|].
  unfold of_decimal, of_Z, binary_normalize.
  change (10 ^ 0) with 1. by rewrite Z.mul_1_r.
Qed.

Lemma literal_decimal (d : uint) :
  d ≠ Nil →
  TrimStart (NilEmpty.string_of_uint d) = NilEmpty.string_of_uint d ∧
  NonDecimalIntegerLiteral (NilEmpty.string_of_uint d) = None ∧
  StrDecimalLiteral (NilEmpty.string_of_uint d)
  = Some (of_decimal false (uint_value 0 d) 0, EmptyString).
Proof.
  intros Hd. pose proof (Digits_uint d 0 0) as HD.
  destruct d as [|d|d|d|d|d|d|d|d|d|d]; [done| ..].
  all: split_and!; [reflexivity | by destruct d |].
  all: change (nb_digits (_ d)) with (S (nb_digits d)) in HD.
  all: by apply (digits_literal _ _ (nb_digits d)).
Qed.

(** Both readings of the decimal digits of [n] give the Number of [n]. *)
Lemma readings_decimal (n : N) :
  ToNumber (decimal n) = of_Z (Z.of_N n) ∧
  parseFloat (decimal n) = of_Z (Z.of_N n).
Proof.
  assert (Hnil : N.to_uint n ≠ Nil).
  { destruct n; [discriminate|]. apply DecimalPos.Unsigned.to_uint_nonnil. }
  destruct (literal_decimal _ Hnil) as (Ht & Hnd & Hlit).
  unfold ToNumber, parseFloat, decimal. rewrite Ht, Hnd, Hlit.
  rewrite uint_value_of_uint, DecimalN.Unsigned.of_to, of_decimal_whole.
  split; [|reflexivity].
  destruct (NilEmpty.string_of_uint (N.to_uint n)) eqn:E; [|reflexivity].
  destruct (N.to_uint n); by try discriminate.
Qed.

(** *** The two steps *)

(** The steps fail to be [v + 1] and [max (v - 1) 0] at two places: below 1
    the decrement goes under 0, and from 2^53 on the increment writes the
    value back as it was. *)
Lemma quantity_steps_fail :
  (ToNumber "0.5" = one_half ∧ parseFloat "0.5" = one_half ∧
   ltb (of_Z 0) one_half = true ∧
   quantity_click minus_button "0.5" = SFopp one_half ∧
   quantity_click minus_button "0.5"
     ≠ larger (sub one_half (of_Z 1)) (of_Z 0)) ∧
  (ToNumber "9007199254740992" = of_Z (2 ^ 53) ∧
   parseFloat "9007199254740992" = of_Z (2 ^ 53) ∧
   quantity_click plus_button "9007199254740992" = of_Z (2 ^ 53)).
Proof. vm_compute. split_and!; (reflexivity || discriminate). Qed.

(** On a whole number below 2^53 the two steps are exact. *)
Lemma whole_steps (n : Z) :
  0 ≤ n → n + 1 < 2 ^ 53 →
  add (of_Z n) (of_Z 1) = of_Z (n + 1) ∧
  (if gtb (of_Z n) (of_Z 0) then sub (of_Z n) (of_Z 1) else of_Z 0)
  = of_Z (Z.max (n - 1) 0).
Proof.
  intros Hn Hlt. rewrite add_one, gtb_zero by lia. split; [done|].
  destruct (Z.ltb_spec 0 n).
  - rewrite sub_one by lia. f_equal. lia.
  - f_equal. lia.
Qed.

(** X19. With the digits of a whole number [n] in the field, [n + 1] below
    2^53, the increment writes [n + 1] and the decrement [max (n - 1) 0]. *)
Lemma whole_quantity_steps (plus minus : element) (n : N) :
  hasClass plus "btn-plus" = true → hasClass minus "btn-plus" = false →
  Z.of_N n + 1 < 2 ^ 53 →
  quantity_click plus (decimal n) = of_Z (Z.of_N n + 1) ∧
  quantity_click minus (decimal n) = of_Z (Z.max (Z.of_N n - 1) 0).
Proof.
  intros Hplus Hminus Hlt. unfold quantity_click.
  destruct (readings_decimal n) as [-> ->]. rewrite Hplus, Hminus.
  apply whole_steps; lia.
Qed.

(** C1, as the script has it.  The field reads as the Number [v] under
    both readings, and [v] is 0 or at least 1.  The increment writes the
    Number [v + 1] back, the decrement the larger of [v - 1] and 0, which is
    not negative.  When [v] is a whole number [n] with [n + 1] below 2^53,
    these are [n + 1] and [max (n - 1) 0] exactly. *)
Theorem quantity_steps (plus minus : element) (s : string) (v : number) :
  hasClass plus "btn-plus" = true → hasClass minus "btn-plus" = false →
  ToNumber s = v → parseFloat s = v →
  SFeqb v (of_Z 0) = true ∨ SFleb (of_Z 1) v = true →
  quantity_click plus s = add v (of_Z 1) ∧
  quantity_click minus s = larger (sub v (of_Z 1)) (of_Z 0) ∧
  ltb (quantity_click minus s) (of_Z 0) = false ∧
  ∀ n : Z, 0 ≤ n → n + 1 < 2 ^ 53 → v = of_Z n →
    quantity_click plus s = of_Z (n + 1) ∧
    quantity_click minus s = of_Z (Z.max (n - 1) 0).
Proof.
  intros Hplus Hminus HT HP Hrange.
  assert (Hv : valid_binary prec emax v = true)
    by (rewrite <- HP; apply parseFloat_valid).
  unfold quantity_click. rewrite Hplus, Hminus, HT, HP.
  split_and!.
  - reflexivity.
  - destruct Hrange as [H0|H1].
    + destruct v as [z|z| |z m e]; try discriminate; by destruct z.
    + pose proof (sub_one_not_negative v Hv H1) as Hs.
      unfold larger. rewrite Hs.
      destruct v as [z|z| |z m e]; try discriminate; by destruct z.
  - destruct Hrange as [H0|H1].
    + destruct v as [z|z| |z m e]; try discriminate; by destruct z.
    + pose proof (sub_one_not_negative v Hv H1) as Hs.
      destruct v as [z|z| |z m e]; try discriminate; by destruct z.
  - intros n Hn Hlt ->. by apply whole_steps.
Qed.

Lemma quantity_steps_witness :
  quantity_click plus_button "7" = of_Z 8 ∧
  quantity_click minus_button "7" = of_Z 6 ∧
  ltb (quantity_click minus_button "7") (of_Z 0) = false.
Proof.
  assert (Hrange : SFeqb (of_Z 7) (of_Z 0) = true ∨
                   SFleb (of_Z 1) (of_Z 7) = true)
    by (right; vm_compute; reflexivity).
  destruct (quantity_steps plus_button minus_button "7" (of_Z 7))
    as (_ & _ & H3 & H4); try (vm_compute; reflexivity); [exact Hrange|].
  destruct (H4 7) as [Hp Hm]; [lia | lia | reflexivity |].
  split_and!; [exact Hp | exact Hm | exact H3].
Defined.

End ProductQuantity.

(** * Further properties of the handlers *)

(** ** The spinner callback *)

Section SpinnerMore.

Lemma update_first_none (p : element → bool) (f : element → element)
    (doc : list element) :
  filter (λ e, p e = true) doc = [] → update_first p f doc = doc.
Proof.
  induction doc as [|e doc IH]; [done|].
  rewrite filter_cons. simpl. destruct (p e) eqn:He.
  - by rewrite decide_True.
  - rewrite decide_False by done. intros Hs. by rewrite IH.
Qed.

Lemma update_first_lookup (p : element → bool) (f : element → element)
    (doc : list element) (i : nat) (e : element) :
  doc !! i = Some e →
  ∃ e', update_first p f doc !! i = Some e' ∧
        (e' = e ∨ p e = true ∧ e' = f e).
Proof.
  revert i. induction doc as [|x doc IH]; intros i Hi; [done|].
  simpl. destruct (p x) eqn:Hx.
  - destruct i as [|i]; simpl in *.
    + injection Hi as ->. eauto.
    + eauto.
  - destruct i as [|i]; simpl in *.
    + injection Hi as ->. eauto.
    + by apply IH.
Qed.

Lemma update_none (sel : selector) (f : element → element) (pg : page) :
  select sel pg = [] → update sel f pg = pg.
Proof.
  destruct pg as [doc y fr anims]. unfold select, update. simpl.
  destruct (by_id sel); intros Hs; f_equal.
  - apply update_first_none.
    by destruct (filter (λ e, matches doc sel e = true) doc).
  - rewrite <- (list_fmap_id doc) at 2. apply list_fmap_ext.
    intros i e Hi. simpl.
    destruct (matches doc sel e) eqn:Hm; [|done].
    assert (He : e ∈ filter (λ e, matches doc sel e = true) doc).
    { apply list_elem_of_filter. split; [done|]. by eapply list_elem_of_lookup_2. }
    rewrite Hs in He. by apply elem_of_nil in He.
Qed.

(** X1. Once the deferred callback has run, the element that
    [$('#spinner')] selects, the first of the page with that id, does not
    carry the class [show]. *)
Theorem spinner_hidden (pg : page) (e : element) :
  e ∈ select (ById "spinner") (hide_spinner pg) → "show" ∉ classList e.
Proof. apply hide_spinner_hides. Qed.

Lemma spinner_hidden_witness :
  let e := {| tagName := "div"; classList := {["show"; "bg-white"]};
              attributes := {["id" := "spinner"]}; displayed := true;
              parentNode := None |} in
  let pg := {| document := [e]; pageYOffset := of_Z 0; fragment := None;
               fx := [] |} in
  "show" ∉ classList (with_classList (λ cl, cl ∖ {["show"]}) e).
Proof.
  intros e pg.
  apply (spinner_hidden pg (with_classList (λ cl, cl ∖ {["show"]}) e)).
  assert (Hs : select (ById "spinner") (hide_spinner pg) =
               [with_classList (λ cl, cl ∖ {["show"]}) e])
    by (vm_compute; reflexivity).
  rewrite Hs. apply list_elem_of_here.
Defined.

(** Of two elements with the id [spinner] only the first is looked up, and
    the second keeps its class [show]. *)
Example hide_spinner_first_only :
  let e := {| tagName := "div"; classList := {["show"]};
              attributes := {["id" := "spinner"]}; displayed := true;
              parentNode := None |} in
  let pg := {| document := [e; e]; pageYOffset := of_Z 0; fragment := None;
               fx := [] |} in
  document (hide_spinner pg) = [with_classList (λ cl, cl ∖ {["show"]}) e; e].
Proof. vm_compute. reflexivity. Qed.

(** X2. The callback touches nothing but the class [show] of [#spinner]
    elements: every element stays in its place with its tag, attributes,
    rendering and parent and with all its other classes, an element that is
    not [#spinner] is unchanged, and the offset, the address and the
    animations of the page are as before. *)
Theorem spinner_frame (pg : page) (i : nat) (e : element) :
  document pg !! i = Some e →
  ∃ e', document (hide_spinner pg) !! i = Some e' ∧
    tagName e' = tagName e ∧ attributes e' = attributes e ∧
    displayed e' = displayed e ∧ parentNode e' = parentNode e ∧
    (∀ c, c ≠ "show" → c ∈ classList e' ↔ c ∈ classList e) ∧
    (attributes e !! "id" ≠ Some "spinner" → e' = e) ∧
    pageYOffset (hide_spinner pg) = pageYOffset pg ∧
    fragment (hide_spinner pg) = fragment pg ∧
    fx (hide_spinner pg) = fx pg.
Proof.
  intros Hi. unfold hide_spinner.
  destruct (0 <? List.length (select (ById "spinner") pg))%nat.
  - unfold removeClass, update. simpl.
    destruct (update_first_lookup
                (λ e, bool_decide (attributes e !! "id" = Some "spinner"))
                (with_classList (λ cl, cl ∖ {["show"]})) _ _ _ Hi)
      as (e' & He' & [-> | [Hid ->]]).
    + exists e. by split_and!.
    + apply bool_decide_eq_true in Hid. eexists. split; [exact He'|].
      destruct e as [t cl a d p]. simpl in *.
      split_and!; try done. intros c Hc. set_solver.
  - exists e. by split_and!.
Qed.

Lemma spinner_frame_witness :
  let e := {| tagName := "div"; classList := {["show"; "bg-white"]};
              attributes := {["id" := "spinner"]}; displayed := true;
              parentNode := None |} in
  let pg := {| document := [nav_bar {["nav-bar"; "show"]}; e];
               pageYOffset := of_Z 0; fragment := None; fx := [] |} in
  ∃ e', document (hide_spinner pg) !! 0%nat = Some e' ∧
        e' = nav_bar {["nav-bar"; "show"]}.
Proof.
  intros e pg.
  destruct (spinner_frame pg 0 (nav_bar {["nav-bar"; "show"]}) eq_refl)
    as (e' & H1 & _ & _ & _ & _ & _ & H7 & _).
  exists e'. split; [exact H1|]. apply H7. vm_compute. discriminate.
Defined.

(** X3. The test of the length before the class is removed changes
    nothing: the callback is the removal of [show] from [#spinner], whether
    there is such an element or not; without one the page is left as it is. *)
Theorem spinner_guard_redundant (pg : page) :
  hide_spinner pg = removeClass (ById "spinner") "show" pg ∧
  (select (ById "spinner") pg = [] → hide_spinner pg = pg).
Proof.
  unfold hide_spinner.
  destruct (select (ById "spinner") pg) as [|e l] eqn:Hs; simpl.
  - split; [|done]. symmetry. by apply update_none.
  - split; [done|discriminate].
Qed.

End SpinnerMore.

(** ** The scroll handlers *)

Section ScrollMore.

(** X4. The sticky-navbar handler touches nothing but the classes
    [sticky-top] and [shadow-sm] of [.nav-bar] elements: every element stays
    in its place with its tag, attributes, rendering and parent and with all
    its other classes, an element that is not [.nav-bar] is unchanged, and
    the offset, the address and the animations of the page are as before. *)
Theorem sticky_navbar_frame (pg : page) (i : nat) (e : element) :
  document pg !! i = Some e →
  ∃ e', document (sticky_navbar pg) !! i = Some e' ∧
    tagName e' = tagName e ∧ attributes e' = attributes e ∧
    displayed e' = displayed e ∧ parentNode e' = parentNode e ∧
    (∀ c, c ≠ "sticky-top" → c ≠ "shadow-sm" →
          c ∈ classList e' ↔ c ∈ classList e) ∧
    ("nav-bar" ∉ classList e → e' = e) ∧
    pageYOffset (sticky_navbar pg) = pageYOffset pg ∧
    fragment (sticky_navbar pg) = fragment pg ∧
    fx (sticky_navbar pg) = fx pg.
Proof.
  intros Hi. unfold sticky_navbar.
  destruct (gtb (scrollTop pg) (of_Z 45)); unfold addClass, removeClass, update;
    rewrite sticky_names; simpl; rewrite list_lookup_fmap, Hi; simpl;
    (eexists; split; [reflexivity|]);
    (destruct (decide ("nav-bar" ∈ classList e)) as [Hn|Hn];
      [rewrite (bool_decide_true _ Hn) | rewrite (bool_decide_false _ Hn)]);
    destruct e as [t cl a d p]; simpl in *; split_and!; try done;
    intros c H1 H2; set_solver.
Qed.

Lemma sticky_navbar_frame_witness :
  let pg := {| document := [nav_bar {["nav-bar"; "bg-light"]};
                            anchor {["href" := "#"]}];
               pageYOffset := of_Z 120; fragment := None; fx := [] |} in
  ∃ e', document (sticky_navbar pg) !! 1%nat = Some e' ∧
        e' = anchor {["href" := "#"]}.
Proof.
  intros pg.
  destruct (sticky_navbar_frame pg 1 (anchor {["href" := "#"]}) eq_refl)
    as (e' & H1 & _ & _ & _ & _ & _ & H7 & _).
  exists e'. split; [exact H1|]. apply H7. simpl. apply not_elem_of_empty.
Defined.

Lemma update_absorb (sel : selector) (f g : element → element) (pg : page)
    (o : number) :
  by_id sel = false →
  (∀ e, f (g e) = f e) →
  (∀ e doc doc', matches doc' sel (g e) = matches doc sel e) →
  (∀ e doc doc', matches doc' sel e = matches doc sel e) →
  update sel f (scroll_to o (update sel g pg)) = update sel f (scroll_to o pg).
Proof.
  intros Hs Hfg Hg Hd. unfold update, scroll_to. simpl. rewrite Hs. f_equal.
  rewrite <- list_fmap_compose. apply list_fmap_ext.
  intros i e _. simpl.
  destruct (matches (document pg) sel e) eqn:He.
  - by rewrite (Hg e (document pg)), He, Hfg.
  - by rewrite (Hd e (document pg)), He.
Qed.

(** X5. The sticky state keeps no history: running the handler at an offset
    [o] after it has run at any earlier offset gives the page that running
    it at [o] alone gives. *)
Theorem sticky_navbar_forgets (pg : page) (o : number) :
  sticky_navbar (scroll_to o (sticky_navbar pg)) = sticky_navbar (scroll_to o pg).
Proof.
  unfold sticky_navbar, scrollTop. cbn [scroll_to pageYOffset].
  destruct (gtb o (of_Z 45)), (gtb (pageYOffset pg) (of_Z 45));
    unfold addClass, removeClass; rewrite sticky_names;
    (apply update_absorb; [done|..]).
  all: try (intros e doc doc'; rewrite !matches_class; destruct e; simpl;
            apply bool_decide_ext; set_solver).
  all: intros [t cl a d p]; unfold with_classList; simpl; f_equal.
  all: rewrite ?difference_union_L; set_solver.
Qed.

Lemma back_to_top_fade_offset (pg : page) :
  scrollTop (back_to_top_fade pg) = scrollTop pg.
Proof. unfold back_to_top_fade. by destruct (gtb _ _). Qed.

(** X6. The two scroll handlers can run in either order: they give the
    same page. *)
Theorem scroll_handlers_commute (pg : page) :
  sticky_navbar (back_to_top_fade pg) = back_to_top_fade (sticky_navbar pg).
Proof.
  pose proof (back_to_top_fade_offset pg) as H1.
  pose proof (sticky_navbar_offset pg) as H2.
  unfold sticky_navbar, back_to_top_fade in *. rewrite H1, H2.
  destruct (gtb (scrollTop pg) (of_Z 45)), (gtb (scrollTop pg) (of_Z 300));
    reflexivity.
Qed.

(** X7. The back-to-top scroll handler does not wait for an animation to
    end: [n] scroll events at one offset start [n] animations of
    [.back-to-top], all the same fade, and leave the offset as it was. *)
Theorem back_to_top_fade_queues (pg : page) (n : nat) :
  ∃ a : animation,
    fx (Nat.iter n back_to_top_fade pg) = fx pg ++ replicate n a ∧
    fx_on a = ByClass "back-to-top" ∧
    fx_prop a = (if gtb (scrollTop pg) (of_Z 300) then FxShow else FxHide) ∧
    pageYOffset (Nat.iter n back_to_top_fade pg) = pageYOffset pg.
Proof.
  exists {| fx_on := ByClass "back-to-top";
            fx_prop := if gtb (scrollTop pg) (of_Z 300) then FxShow else FxHide;
            fx_duration := speeds "slow"; fx_easing := "swing" |}.
  induction n as [|n (IH1 & IH2 & IH3 & IH4)].
  - simpl. by rewrite app_nil_r.
  - simpl Nat.iter. set (q := Nat.iter n back_to_top_fade pg) in *.
    unfold back_to_top_fade, scrollTop in *. rewrite IH4.
    destruct (gtb (pageYOffset pg) (of_Z 300));
      unfold fadeIn, fadeOut, animate, start; cbn [fx pageYOffset];
      rewrite IH1, <- app_assoc, <- replicate_cons_app; by split_and!.
Qed.

End ScrollMore.
(** ** The click handlers *)

Section ClickMore.

(** X8. The back-to-top click never asks for a timing function that is not
    loaded: with jQuery's own [swing] among the functions of [$.easing], the
    one animation the click starts names a function of [$.easing]; and the
    click itself moves nothing, the document and the offset are as before. *)
Theorem back_to_top_click_easing_loaded (g : globals) (pg : page)
    (curves : gset string) :
  easing g = Some curves → "swing" ∈ curves →
  ∃ a : animation,
    fx (back_to_top_click g pg).2 = fx pg ++ [a] ∧
    fx_easing a ∈ curves ∧
    document (back_to_top_click g pg).2 = document pg ∧
    pageYOffset (back_to_top_click g pg).2 = pageYOffset pg.
Proof.
  intros Hg Hswing. unfold back_to_top_click, animate, start, easing_has.
  rewrite Hg. simpl. eexists. split; [reflexivity|]. simpl.
  split; [|done]. by case_bool_decide.
Qed.

Lemma back_to_top_click_easing_loaded_witness :
  let g := {| WOW := false; fn := Some ∅;
              easing := Some {["linear"; "swing"; "easeInOutExpo"]} |} in
  let pg := {| document := [html_root]; pageYOffset := of_Z 900;
               fragment := None; fx := [] |} in
  ∃ a : animation,
    fx (back_to_top_click g pg).2 = [a] ∧
    fx_easing a ∈ ({["linear"; "swing"; "easeInOutExpo"]} : gset string).
Proof.
  intros g pg.
  destruct (back_to_top_click_easing_loaded g pg
              {["linear"; "swing"; "easeInOutExpo"]} eq_refl)
    as (a & H1 & H2 & _).
  - set_solver.
  - exists a. split; [exact H1 | exact H2].
Defined.

(** X9. The placeholder interceptor never stops the propagation of the
    event and never takes back a prevention made before it; on an anchor
    with [data-bs-toggle] what the click does is what the other handlers
    have decided. *)
Theorem placeholder_link_passes_on (this : element) (ev : event) (pg : page) :
  let ev' := after_handler (placeholder_link this ev).1
                           (placeholder_link this ev).2 in
  propagationStopped ev' = propagationStopped ev ∧
  (defaultPrevented ev = true → defaultPrevented ev' = true) ∧
  (hasAttribute this "data-bs-toggle" = true →
     click_placeholder this ev pg =
       if defaultPrevented ev then pg else follow_empty_fragment pg).
Proof.
  unfold click_placeholder, placeholder_link.
  destruct (hasAttribute this "data-bs-toggle"); simpl; split_and!;
    try done; discriminate.
Qed.

End ClickMore.

(** ** The run of the script, whatever is loaded *)

Section StartupMore.



End StartupMore.
(** ** The quantity buttons, on every text and over many clicks *)

Section QuantityMore.

Lemma shr_m_nonneg (mrs : shr_record) (e n : Z) :
  0 ≤ shr_m mrs → 0 ≤ shr_m (fst (shr mrs e n)).
Proof.
  intros Hm. destruct (Z_le_gt_dec n 0) as [Hn|Hn].
  - by rewrite shr_nonpos.
  - destruct (shr_spec mrs e n) as [-> _]; [done|lia|].
    apply Z.div_pos; [done|]. apply Z.pow_pos_nonneg; lia.
Qed.

(** The rounding of a mantissa that is not negative is a Number. *)
Lemma binary_round_aux_not_nan (sx : bool) (m e : Z) (l : location) :
  0 ≤ m → is_nan (binary_round_aux prec emax sx m e l) = false.
Proof.
  intros Hm. unfold binary_round_aux, shr_fexp.
  pose proof (shr_m_nonneg (shr_record_of_loc m l) e
                (fexp prec emax (Zdigits2 m + e) - e)) as H1.
  rewrite shr_record_of_loc_m in H1. specialize (H1 Hm).
  destruct (shr (shr_record_of_loc m l) e _) as [mrs' e']. simpl in H1.
  set (m'' := round_nearest_even (shr_m mrs') (loc_of_shr_record mrs')).
  assert (Hm'' : 0 ≤ m'').
  { subst m''.
    destruct (round_nearest_even_range (shr_m mrs') (loc_of_shr_record mrs'))
      as [-> | ->]; lia. }
  pose proof (shr_m_nonneg (shr_record_of_loc m'' loc_Exact) e'
                (fexp prec emax (Zdigits2 m'' + e') - e')) as H2.
  rewrite shr_record_of_loc_m in H2. specialize (H2 Hm'').
  destruct (shr (shr_record_of_loc m'' loc_Exact) e' _) as [mrs'' e''].
  simpl in H2. destruct (shr_m mrs'') as [|p|p]; [done| |lia].
  by destruct (e'' <=? emax - prec).
Qed.

Lemma binary_normalize_not_nan (d e : Z) :
  is_nan (binary_normalize prec emax d e false) = false.
Proof.
  unfold binary_normalize, binary_round.
  destruct d as [|p|p]; [done| |]; destruct (shl_align _ _ _);
    by apply binary_round_aux_not_nan.
Qed.

Lemma add_one_is_nan (v : number) : is_nan (add v (of_Z 1)) = is_nan v.
Proof.
  rewrite of_Z_one. destruct v as [z|z| |z m e]; try done.
  unfold add, SFadd. simpl is_nan. apply binary_normalize_not_nan.
Qed.

Lemma sub_one_is_nan (v : number) : is_nan (sub v (of_Z 1)) = is_nan v.
Proof.
  rewrite of_Z_one. destruct v as [z|z| |z m e]; try done.
  unfold sub, SFsub. simpl is_nan. apply binary_normalize_not_nan.
Qed.

(** X12. The increment writes NaN exactly when [parseFloat] finds no number
    at the head of the field. *)
Theorem increment_nan_iff (button : element) (s : string) :
  hasClass button "btn-plus" = true →
  is_nan (quantity_click button s) = is_nan (parseFloat s).
Proof.
  intros Hb. unfold quantity_click. rewrite Hb. apply add_one_is_nan.
Qed.

Lemma increment_nan_iff_witness :
  is_nan (quantity_click plus_button "12 pieces") = false ∧
  is_nan (quantity_click plus_button "pieces: 12") = true.
Proof.
  split.
  - rewrite (increment_nan_iff plus_button "12 pieces");
      vm_compute; reflexivity.
  - rewrite (increment_nan_iff plus_button "pieces: 12");
      vm_compute; reflexivity.
Defined.

(** X13. The decrement never writes NaN, whatever the field holds. *)
Theorem decrement_never_nan (button : element) (s : string) :
  hasClass button "btn-plus" = false →
  is_nan (quantity_click button s) = false.
Proof.
  intros Hb. unfold quantity_click. rewrite Hb.
  destruct (gtb (ToNumber s) (of_Z 0)) eqn:Hg; [|reflexivity].
  rewrite sub_one_is_nan.
  destruct (parseFloat s) eqn:Hp; try reflexivity.
  apply unparsable_not_positive in Hp. congruence.
Qed.

Lemma decrement_never_nan_witness :
  is_nan (quantity_click minus_button "0x10") = false.
Proof.
  apply (decrement_never_nan minus_button "0x10"). vm_compute. reflexivity.
Defined.

(** X14. An increment does not write a negative value unless the number at
    the head of the field is negative. *)
Theorem increment_not_negative (button : element) (s : string) :
  hasClass button "btn-plus" = true →
  ltb (parseFloat s) (of_Z 0) = false →
  ltb (quantity_click button s) (of_Z 0) = false.
Proof.
  intros Hb Hv. unfold quantity_click. rewrite Hb, of_Z_one.
  destruct (parseFloat s) as [z|z| |z m e]; try done.
  destruct z; [discriminate|].
  unfold add, SFadd, cond_Zopp. apply binary_normalize_not_negative. lia.
Qed.

Lemma increment_not_negative_witness :
  ltb (quantity_click plus_button "0.5") (of_Z 0) = false.
Proof.
  apply (increment_not_negative plus_button "0.5"); vm_compute; reflexivity.
Defined.

End QuantityMore.
(** ** Runs of clicks *)

Section Runs.

(** What one click writes when the field reads as a whole number. *)
Lemma click_whole (button : element) (s : string) (n : Z) :
  reads_as s (of_Z n) → 0 ≤ n → n + 1 < 2 ^ 53 →
  quantity_click button s =
    of_Z (if hasClass button "btn-plus" then n + 1 else Z.max (n - 1) 0).
Proof.
  intros [HT HP] Hn Hlt. unfold quantity_click. rewrite HT, HP.
  destruct (whole_steps n Hn Hlt) as [Hp Hm].
  by destruct (hasClass button "btn-plus").
Qed.

Lemma clicks_counter (buttons : list element) (s s' : string) (n : Z) :
  clicks buttons s s' → reads_as s (of_Z n) →
  0 ≤ n → n + Z.of_nat (List.length buttons) < 2 ^ 53 →
  reads_as s' (of_Z (counter buttons n)) ∧
  0 ≤ counter buttons n ≤ n + Z.of_nat (List.length buttons).
Proof.
  intros Hrun. revert n.
  induction Hrun as [s|button rest s s' s'' Hw Hrun IH]; intros n Hs Hn Hlt.
  - simpl. split; [done|lia].
  - simpl List.length in *. rewrite Nat2Z.inj_succ in *.
    rewrite (click_whole button s n) in Hw by (try done; lia).
    simpl counter.
    destruct (hasClass button "btn-plus").
    + destruct (IH (n + 1)) as [H1 H2]; [done|lia|lia|]. split; [done|lia].
    + destruct (IH (Z.max (n - 1) 0)) as [H1 H2]; [done|lia|lia|].
      split; [done|lia].
Qed.

(** X15. From a field that reads as a whole number [n], a run of clicks on
    the two buttons keeps the field a whole number: it reads as what the
    counter that adds 1 and takes 1 away down to 0 gives, which is never
    negative and never NaN, as long as 2^53 is not reached. *)
Theorem clicks_whole (buttons : list element) (s s' : string) (n : Z) :
  clicks buttons s s' → reads_as s (of_Z n) →
  0 ≤ n → n + Z.of_nat (List.length buttons) < 2 ^ 53 →
  reads_as s' (of_Z (counter buttons n)) ∧
  0 ≤ counter buttons n ≤ n + Z.of_nat (List.length buttons) ∧
  ltb (parseFloat s') (of_Z 0) = false ∧ is_nan (parseFloat s') = false.
Proof.
  intros Hrun Hs Hn Hlt.
  destruct (clicks_counter buttons s s' n Hrun Hs Hn Hlt) as [[HT HP] Hc].
  split_and!; try done; try lia; rewrite HP.
  - destruct (counter buttons n) as [|p|p] eqn:E; [done| |lia].
    destruct (of_Z_normal (Zpos p)) as (q & t & -> & _); [lia|done].
  - destruct (counter buttons n) as [|p|p] eqn:E; [done| |lia].
    destruct (of_Z_normal (Zpos p)) as (q & t & -> & _); [lia|done].
Qed.

Lemma run_1_2_1_0 :
  clicks [plus_button; minus_button; minus_button] "1" "0".
Proof.
  apply (clicks_step _ _ "1" "2"); [by vm_compute|].
  apply (clicks_step _ _ "2" "1"); [by vm_compute|].
  apply (clicks_step _ _ "1" "0"); [by vm_compute|].
  apply clicks_done.
Qed.

Lemma clicks_whole_witness :
  reads_as "0" (of_Z 0) ∧ ltb (parseFloat "0") (of_Z 0) = false.
Proof.
  destruct (clicks_whole [plus_button; minus_button; minus_button] "1" "0" 1)
    as (H1 & _ & H3 & _).
  - exact run_1_2_1_0.
  - by vm_compute.
  - lia.
  - simpl. lia.
  - split; [exact H1 | exact H3].
Defined.

(** X16. On a whole number an increment followed by a decrement gives the
    number back; a decrement followed by an increment gives it back unless
    it was 0, which becomes 1. *)
Theorem plus_minus_round_trip (plus minus : element) (s s' s'' : string)
    (n : Z) :
  hasClass plus "btn-plus" = true → hasClass minus "btn-plus" = false →
  reads_as s (of_Z n) → 0 ≤ n → n + 2 < 2 ^ 53 →
  (clicks [plus; minus] s s' → reads_as s' (of_Z n)) ∧
  (clicks [minus; plus] s s'' → reads_as s'' (of_Z (Z.max n 1))).
Proof.
  intros Hplus Hminus Hs Hn Hlt. split; intros Hrun.
  - destruct (clicks_counter _ s s' n Hrun Hs Hn) as [H _];
      [simpl; lia|].
    simpl in H. rewrite Hplus, Hminus in H.
    by replace (Z.max (n + 1 - 1) 0) with n in H by lia.
  - destruct (clicks_counter _ s s'' n Hrun Hs Hn) as [H _];
      [simpl; lia|].
    simpl in H. rewrite Hplus, Hminus in H.
    by replace (Z.max (n - 1) 0 + 1) with (Z.max n 1) in H by lia.
Qed.

Lemma plus_minus_round_trip_witness :
  reads_as "1" (of_Z (Z.max 0 1)).
Proof.
  assert (Hp : hasClass plus_button "btn-plus" = true) by (by vm_compute).
  assert (Hm : hasClass minus_button "btn-plus" = false) by (by vm_compute).
  assert (Hr : reads_as "0" (of_Z 0)) by (by vm_compute).
  assert (H0 : 0 ≤ 0) by lia.
  assert (H2 : 0 + 2 < 2 ^ 53) by lia.
  destruct (plus_minus_round_trip plus_button minus_button "0" "0" "1" 0
              Hp Hm Hr H0 H2) as [_ H].
  apply H.
  apply (clicks_step _ _ "0" "0"); [by vm_compute|].
  apply (clicks_step _ _ "0" "1"); [by vm_compute|].
  apply clicks_done.
Defined.

Lemma counter_replicate (button : element) (k : nat) (n : Z) :
  0 ≤ n →
  counter (replicate k button) n =
    if hasClass button "btn-plus" then n + Z.of_nat k
    else Z.max (n - Z.of_nat k) 0.
Proof.
  revert n. induction k as [|k IH]; intros n Hn.
  - simpl. destruct (hasClass button "btn-plus"); lia.
  - simpl replicate. simpl counter. rewrite Nat2Z.inj_succ.
    destruct (hasClass button "btn-plus") eqn:Hb.
    + rewrite IH by lia. rewrite ?Hb. lia.
    + rewrite IH by lia. rewrite ?Hb. lia.
Qed.

(** X17. From a whole number [n], [k] clicks on the increment give
    [n + k], and [k] clicks on the decrement give [n - k] or, once 0 is
    reached, 0. *)
Theorem repeated_clicks (button : element) (k : nat) (s s' : string) (n : Z) :
  clicks (replicate k button) s s' → reads_as s (of_Z n) →
  0 ≤ n → n + Z.of_nat k < 2 ^ 53 →
  reads_as s'
    (of_Z (if hasClass button "btn-plus" then n + Z.of_nat k
           else Z.max (n - Z.of_nat k) 0)).
Proof.
  intros Hrun Hs Hn Hlt.
  destruct (clicks_counter _ s s' n Hrun Hs Hn) as [H _].
  - by rewrite length_replicate.
  - by rewrite counter_replicate in H.
Qed.

Lemma repeated_clicks_witness : reads_as "0" (of_Z (Z.max (2 - 3) 0)).
Proof.
  assert (Hr : reads_as "2" (of_Z 2)) by (by vm_compute).
  apply (repeated_clicks minus_button 3 "2" "0" 2); [|exact Hr|lia|simpl; lia].
  apply (clicks_step _ _ "2" "1"); [by vm_compute|].
  apply (clicks_step _ _ "1" "0"); [by vm_compute|].
  apply (clicks_step _ _ "0" "0"); [by vm_compute|].
  apply clicks_done.
Defined.

(** X18. Once the field holds no number, increments do not bring one back:
    after any run of increments [parseFloat] still finds none, so every
    further increment writes NaN; one decrement then writes 0. *)
Theorem nan_persists (buttons : list element) (s s' : string) :
  clicks buttons s s' →
  Forall (λ button, hasClass button "btn-plus" = true) buttons →
  parseFloat s = NaN →
  parseFloat s' = NaN ∧
  (∀ plus, hasClass plus "btn-plus" = true → quantity_click plus s' = NaN) ∧
  (∀ minus, hasClass minus "btn-plus" = false →
            quantity_click minus s' = of_Z 0).
Proof.
  intros Hrun Hall.
  assert (Hstay : parseFloat s = NaN → parseFloat s' = NaN).
  { induction Hrun as [s|button rest s s' s'' [_ HP] Hrun IH]; [done|].
    inversion_clear Hall as [|? ? Hb Hrest]. intros Hs. apply IH; [done|].
    rewrite HP. by apply increment_unparsable. }
  intros Hs. specialize (Hstay Hs). split_and!; [done| |].
  - intros plus Hb. by apply increment_unparsable.
  - intros minus Hb. unfold quantity_click.
    by rewrite Hb, (unparsable_not_positive s' Hstay).
Qed.

Lemma nan_persists_witness :
  parseFloat "NaN" = NaN ∧ quantity_click minus_button "NaN" = of_Z 0.
Proof.
  destruct (nan_persists [plus_button; plus_button] "" "NaN")
    as (H1 & _ & H3).
  - apply (clicks_step _ _ "" "NaN"); [by vm_compute|].
    apply (clicks_step _ _ "NaN" "NaN"); [by vm_compute|].
    apply clicks_done.
  - repeat constructor.
  - reflexivity.
  - split; [exact H1 | apply H3; reflexivity].
Defined.

End Runs.

(** ** The digits of a whole number in the field *)

Section WholeDigits.

Lemma whole_quantity_steps_witness :
  quantity_click plus_button (decimal 41) = of_Z 42 ∧
  quantity_click minus_button (decimal 41) = of_Z 40.
Proof.
  apply (whole_quantity_steps plus_button minus_button 41);
    [by vm_compute | by vm_compute | lia].
Defined.

End WholeDigits.
